(** * GraphAlgo: shortest paths, connected components and JSON persistence

    A shallow embedding of [src/GraphAlgo.py].  Python dictionaries are
    association lists in insertion order, the scratch distance of a vertex
    ([tag]) is a number or [math.inf], loops that Python runs with [while]
    take a fuel argument, and every call ends in an [outcome]: a returned
    value, a raised exception, or fuel exhausted.

    Numbers (edge weights, distances, coordinates) are Python integers,
    exact and unbounded, as in the docstring example of [shortest_path].
    The module [FloatWeights] repeats [shortest_path] for float weights,
    where sums are rounded and can overflow; what is proved about distances
    being least is proved for integer weights and fails for floats. *)

From Stdlib Require Import Floats ZArith Bool Lia String Permutation Arith List.
Import ListNotations.
Local Open Scope Z_scope.

(** ** Outcomes of a call *)

Inductive exn : Type :=
| KeyError
| TypeError
| ValueError
| OSError
| JSONDecodeError
| UnboundLocalError.

Inductive outcome (A : Type) : Type :=
| Return (a : A)
| Raise (e : exn)
| OutOfFuel.

Arguments Return {A} a.
Arguments Raise {A} e.
Arguments OutOfFuel {A}.

Definition bind {A B : Type} (m : outcome A) (f : A -> outcome B) : outcome B :=
  match m with
  | Return a => f a
  | Raise e => Raise e
  | OutOfFuel => OutOfFuel
  end.

Notation "x <- m ;; k" := (bind m (fun x => k))
  (at level 61, m at next level, right associativity).

(** [for x in l: st = body(st, x)], stopping at the first exception. *)
Fixpoint for_each {A S : Type} (l : list A) (body : S -> A -> outcome S) (st : S)
  : outcome S :=
  match l with
  | [] => Return st
  | x :: l' => st' <- body st x ;; for_each l' body st'
  end.

(** ** Python dictionaries keyed by integers *)

Section Dict.
Context {V : Type}.

Definition dict := list (Z * V).

Fixpoint get (d : dict) (k : Z) : option V :=
  match d with
  | [] => None
  | (k', v) :: d' => if Z.eqb k k' then Some v else get d' k
  end.

(** [d[k] = v]: an existing key keeps its place, a new key goes last. *)
Fixpoint set (d : dict) (k : Z) (v : V) : dict :=
  match d with
  | [] => [(k, v)]
  | (k', v') :: d' =>
      if Z.eqb k k' then (k', v) :: d' else (k', v') :: set d' k v
  end.

Definition keys (d : dict) : list Z := map fst d.
Definition values (d : dict) : list V := map snd d.
Definition contains (d : dict) (k : Z) : bool :=
  match get d k with Some _ => true | None => false end.

(** [d[k]], raising [KeyError] for a missing key. *)
Definition subscript (d : dict) (k : Z) : outcome V :=
  match get d k with
  | Some v => Return v
  | None => Raise KeyError
  end.
End Dict.

Arguments dict V : clear implicits.

(** ** Distances: a number or [math.inf] *)

Inductive dist : Type :=
| Fin (z : Z)
| Inf.

(** [t + w] for a tag [t] and a weight [w]. *)
Definition dist_add (t : dist) (w : Z) : dist :=
  match t with
  | Fin a => Fin (a + w)
  | Inf => Inf
  end.

(** [a > b]. *)
Definition dist_gtb (a b : dist) : bool :=
  match a, b with
  | Fin x, Fin y => Z.ltb y x
  | Inf, Fin _ => true
  | _, Inf => false
  end.

(** ** The graph store

    [DiGraph] and [NodeData] live in modules of the repository that are not
    part of [src/]; the definitions of this section follow sections 3 and
    4.1 of the specification. *)

(** Modelled from the spec: the [NodeData] class (module [components]), a
    vertex with its id, an optional 3D position and the scratch distance. *)
Record NodeData : Type := mkNode {
  key : Z;
  pos : option (Z * Z * Z);
  tag : dist
}.

(** Modelled from the spec: the [DiGraph] class, the vertex mapping and the
    two adjacency mappings, outgoing and incoming. *)
Record DiGraph : Type := mkGraph {
  graph_v : dict NodeData;
  graph_edges_out : dict (dict Z);
  graph_edges_in : dict (dict Z)
}.

(** Modelled from the spec: [DiGraph()], the empty graph. *)
Definition empty_graph : DiGraph := mkGraph [] [] [].

(** Modelled from the spec: [DiGraph.get_all_v], the vertex mapping itself
    (a view, not a copy: the vertices are shared). *)
Definition get_all_v (g : DiGraph) : dict NodeData := graph_v g.

Definition adjacency (m : dict (dict Z)) (v : Z) : dict Z :=
  match get m v with
  | Some d => d
  | None => []
  end.

(** Modelled from the spec: [DiGraph.all_out_edges_of_node], the adjacency
    mapping of a vertex, empty when it has no such edge; a vertex that does
    not exist is an error. *)
Definition all_out_edges_of_node (g : DiGraph) (v : Z) : outcome (dict Z) :=
  if contains (graph_v g) v then Return (adjacency (graph_edges_out g) v)
  else Raise KeyError.

(** Modelled from the spec: [DiGraph.all_in_edges_of_node]. *)
Definition all_in_edges_of_node (g : DiGraph) (v : Z) : outcome (dict Z) :=
  if contains (graph_v g) v then Return (adjacency (graph_edges_in g) v)
  else Raise KeyError.

(** Modelled from the spec: [DiGraph.add_node], which inserts a new vertex
    and leaves the graph as it is when the id exists already.  The scratch
    distance of a new vertex is not fixed by the spec; it starts at 0. *)
Definition add_node (g : DiGraph) (node_id : Z) (p : option (Z * Z * Z))
  : bool * DiGraph :=
  if contains (graph_v g) node_id then (true, g)
  else (true, mkGraph (set (graph_v g) node_id (mkNode node_id p (Fin 0)))
                      (graph_edges_out g) (graph_edges_in g)).

(** Modelled from the spec: [DiGraph.add_edge], which fails (leaving the
    graph unchanged) when an endpoint is absent, the weight is negative or
    the edge is a self-loop, and otherwise writes the weight into both
    adjacency mappings. *)
Definition add_edge (g : DiGraph) (src dest w : Z) : bool * DiGraph :=
  if negb (contains (graph_v g) src) || negb (contains (graph_v g) dest)
     || Z.ltb w 0 || Z.eqb src dest
  then (false, g)
  else (true,
        mkGraph (graph_v g)
                (set (graph_edges_out g) src
                     (set (adjacency (graph_edges_out g) src) dest w))
                (set (graph_edges_in g) dest
                     (set (adjacency (graph_edges_in g) dest) src w))).

(** The tag of vertex [v] in a vertex mapping: [nodes[v].tag]. *)
Definition tag_of (nodes : dict NodeData) (v : Z) : outcome dist :=
  n <- subscript nodes v ;; Return (tag n).

(** [nodes[v].tag = t]. *)
Definition set_tag (nodes : dict NodeData) (v : Z) (t : dist)
  : outcome (dict NodeData) :=
  n <- subscript nodes v ;;
  Return (set nodes v (mkNode (key n) (pos n) t)).

(** [self.graph.graph_v[v].tag = t], the write through the shared vertex. *)
Definition set_node_tag (g : DiGraph) (v : Z) (t : dist) : outcome DiGraph :=
  nodes' <- set_tag (graph_v g) v t ;;
  Return (mkGraph nodes' (graph_edges_out g) (graph_edges_in g)).

(** ** The priority queue

    [heapq] is used through [heappush] and [heappop] on tuples
    [(tag, id)] only; it is modelled by its contract, a list kept in
    ascending tuple order whose head is the least item. *)

Definition heap_item : Type := dist * Z.

(** Python's tuple comparison [a <= b]. *)
Definition item_leb (a b : heap_item) : bool :=
  if dist_gtb (fst b) (fst a) then true
  else if dist_gtb (fst a) (fst b) then false
  else Z.leb (snd a) (snd b).

Fixpoint heappush (h : list heap_item) (x : heap_item) : list heap_item :=
  match h with
  | [] => [x]
  | y :: h' => if item_leb x y then x :: h else y :: heappush h' x
  end.

Definition heappop (h : list heap_item) : option (heap_item * list heap_item) :=
  match h with
  | [] => None
  | x :: h' => Some (x, h')
  end.

(** ** shortest_path *)

Definition mem (x : Z) (l : list Z) : bool := existsb (Z.eqb x) l.

(** What the loops of [shortest_path] read and write: the graph (whose
    vertices carry the tags), [prev_nodes] and [heap_min]. *)
Record sp_state : Type := mkState {
  graph : DiGraph;
  prev_nodes : dict Z;
  heap_min : list heap_item
}.

(** The body of [for node_id in self.graph.all_out_edges_of_node(v).keys()]. *)
Definition relax (visited : list Z) (v : Z) (st : sp_state) (node_id : Z)
  : outcome sp_state :=
  if negb (mem node_id visited) then
    out_v <- all_out_edges_of_node (graph st) v ;;
    if mem node_id (keys out_v) then
      tv <- tag_of (graph_v (graph st)) v ;;
      out_v' <- all_out_edges_of_node (graph st) v ;;
      w <- subscript out_v' node_id ;;
      let alt_path := dist_add tv w in
      tn <- tag_of (get_all_v (graph st)) node_id ;;
      if dist_gtb tn alt_path then
        g' <- set_node_tag (graph st) node_id alt_path ;;
        Return (mkState g'
                        (set (prev_nodes st) node_id v)
                        (heappush (heap_min st) (alt_path, node_id)))
      else Return st
    else Return st
  else Return st.

(** [while len(heap_min) > 0: ...] *)
Fixpoint drain (fuel : nat) (visited : list Z) (st : sp_state) : outcome sp_state :=
  match heappop (heap_min st) with
  | None => Return st
  | Some ((_, v), h') =>
      match fuel with
      | O => OutOfFuel
      | S fuel' =>
          out_v <- all_out_edges_of_node (graph st) v ;;
          st' <- for_each (keys out_v) (relax visited v)
                          (mkState (graph st) (prev_nodes st) h') ;;
          drain fuel' visited st'
      end
  end.

(** [while self.graph.get_all_v()[node_key].tag > 0: ...], followed by the
    last [li_return.append(node_key)]. *)
Fixpoint reconstruct (fuel : nat) (st : sp_state) (node_key : Z) (li_return : list Z)
  : outcome (list Z) :=
  t <- tag_of (get_all_v (graph st)) node_key ;;
  if dist_gtb t (Fin 0) then
    match fuel with
    | O => OutOfFuel
    | S fuel' =>
        p <- subscript (prev_nodes st) node_key ;;
        reconstruct fuel' st p (li_return ++ [node_key])
    end
  else Return (li_return ++ [node_key]).

(** The state when the drain loop is entered: every tag [math.inf], the
    tag of [id1] zero, [(0, id1)] on the heap. *)
Definition sp_init (self : DiGraph) (id1 : Z) : outcome sp_state :=
  g1 <- for_each (keys (graph_v self)) (fun g x => set_node_tag g x Inf) self ;;
  g2 <- set_node_tag g1 id1 (Fin 0) ;;
  t0 <- tag_of (graph_v g2) id1 ;;
  Return (mkState g2 [] (heappush [] (t0, id1))).

(** [shortest_path(id1, id2)]; [Return None] is Python's [None]. *)
Definition shortest_path (fuel : nat) (self : DiGraph) (id1 id2 : Z)
  : outcome (option (dist * list Z)) :=
  let nodes := get_all_v self in
  if negb (contains nodes id1) || negb (contains nodes id2) then Return None
  else
    let visited := [] in
    st0 <- sp_init self id1 ;;
    st <- drain fuel visited st0 ;;
    li_return <- reconstruct fuel st id2 [] ;;
    t <- tag_of (get_all_v (graph st)) id2 ;;
    Return (Some (t, rev li_return)).

(** ** Connected components *)

(** The dictionary [visited] and the list [queue]. *)
Definition bfs_state : Type := (dict bool * list Z)%type.

(** The body of [for i in ...keys()]: [if not visited[i]: queue.append(i);
    visited[i] = True], with [KeyError] when [i] is no key of [visited]. *)
Definition bfs_visit (st : bfs_state) (i : Z) : outcome bfs_state :=
  b <- subscript (fst st) i ;;
  if negb b then Return (set (fst st) i true, snd st ++ [i])
  else Return st.

(** [while queue: s = queue.pop(0); for i in neighbours(s).keys(): ...] *)
Fixpoint bfs_loop (fuel : nat) (neighbours : Z -> outcome (dict Z)) (st : bfs_state)
  : outcome bfs_state :=
  match snd st with
  | [] => Return st
  | s :: queue =>
      match fuel with
      | O => OutOfFuel
      | S fuel' =>
          nb <- neighbours s ;;
          st' <- for_each (keys nb) bfs_visit (fst st, queue) ;;
          bfs_loop fuel' neighbours st'
      end
  end.

(** [list.remove(x)]: the first occurrence goes, [ValueError] without one. *)
Fixpoint list_remove (l : list Z) (x : Z) : outcome (list Z) :=
  match l with
  | [] => Raise ValueError
  | y :: l' => if Z.eqb y x then Return l'
               else (r <- list_remove l' x ;; Return (y :: r))
  end.

(** The common body of [bfs_out] and [bfs_in]. *)
Definition bfs (fuel : nat) (self : DiGraph) (neighbours : Z -> outcome (dict Z))
  (node_id : Z) : outcome (list Z) :=
  let visited := fold_left (fun vis node => set vis node false)
                           (keys (get_all_v self)) [] in
  let queue := [] in
  let visited := set visited node_id true in
  let queue := queue ++ [node_id] in
  st <- bfs_loop fuel neighbours (visited, queue) ;;
  let list_return := map fst (filter snd (fst st)) in
  list_remove list_return node_id.

Definition bfs_out (fuel : nat) (self : DiGraph) (node_id : Z) : outcome (list Z) :=
  bfs fuel self (all_out_edges_of_node self) node_id.

Definition bfs_in (fuel : nat) (self : DiGraph) (node_id : Z) : outcome (list Z) :=
  bfs fuel self (all_in_edges_of_node self) node_id.

(** [a & b] on two [list] objects: the type defines no [__and__], so the
    operator raises [TypeError] whatever the lists hold. *)
Definition list_and (a b : list Z) : outcome (list Z) := Raise TypeError.

Definition connected_component (fuel : nat) (self : DiGraph) (id1 : Z)
  : outcome (list Z) :=
  set_in <- bfs_in fuel self id1 ;;
  set_out <- bfs_out fuel self id1 ;;
  list_and set_in set_out.

(** The body of [for node in self.graph.get_all_v().keys()]. *)
Definition components_step (fuel : nat) (self : DiGraph)
  (st : list Z * list (list Z)) (node : Z) : outcome (list Z * list (list Z)) :=
  if negb (mem node (fst st)) then
    SCC_set <- connected_component fuel self node ;;
    Return (fst st ++ SCC_set, snd st ++ [SCC_set])
  else Return st.

Definition connected_components (fuel : nat) (self : DiGraph)
  : outcome (list (list Z)) :=
  let visited := [] in
  let list_return := [] in
  st <- for_each (keys (get_all_v self)) (components_step fuel self)
                 (visited, list_return) ;;
  Return (snd st).

(** ** JSON persistence

    [json.load] and [json.dump] are library calls; a file holds either the
    text of a JSON value or something that does not parse.  Tuples are
    written as arrays. *)

#[local] Set Warnings "-register-all".

Inductive json : Type :=
| JNum (z : Z)
| JStr (s : string)
| JArr (l : list json)
| JObj (fields : list (string * json)).

Inductive file_state : Type :=
| Absent                       (* no such file *)
| NoAccess                     (* exists, cannot be opened *)
| Content (c : option json).   (* [None]: not the text of a JSON value *)

Definition filesystem : Type := string -> file_state.

Definition write_file (w : filesystem) (name : string) (c : option json)
  : filesystem :=
  fun n => if String.eqb n name then Content c else w n.

(** [open(file_name)]: the content, or [OSError]. *)
Definition open_read (w : filesystem) (name : string) : outcome (option json) :=
  match w name with
  | Content c => Return c
  | Absent | NoAccess => Raise OSError
  end.

(** [open(file_name, 'w')]: the file is created or truncated, or [OSError]. *)
Definition open_write (w : filesystem) (name : string) : outcome filesystem :=
  match w name with
  | NoAccess => Raise OSError
  | Absent | Content _ => Return (write_file w name None)
  end.

Definition json_load (c : option json) : outcome json :=
  match c with
  | Some j => Return j
  | None => Raise JSONDecodeError
  end.

Fixpoint field (fields : list (string * json)) (k : string) : option json :=
  match fields with
  | [] => None
  | (k', v) :: rest => if String.eqb k k' then Some v else field rest k
  end.

(** [j[k]] for a string [k]: a lookup in an object, [TypeError] on anything
    else. *)
Definition json_subscript (j : json) (k : string) : outcome json :=
  match j with
  | JObj fields =>
      match field fields k with
      | Some v => Return v
      | None => Raise KeyError
      end
  | _ => Raise TypeError
  end.

Definition chars (s : string) : list json :=
  map (fun c => JStr (String c EmptyString)) (list_ascii_of_string s).

(** What [for x in j] goes through: the elements of an array, the keys of an
    object, the characters of a string. *)
Definition json_iter (j : json) : outcome (list json) :=
  match j with
  | JArr l => Return l
  | JObj fields => Return (map (fun kv => JStr (fst kv)) fields)
  | JStr s => Return (chars s)
  | JNum _ => Raise TypeError
  end.

(** Modelled from the spec: the vertex id handed to [DiGraph.add_node] and
    the endpoints and weight handed to [DiGraph.add_edge] are numbers. *)
Definition as_number (j : json) : outcome Z :=
  match j with
  | JNum z => Return z
  | _ => Raise TypeError
  end.

(** Modelled from the spec: the position handed to [DiGraph.add_node] is a
    sequence [x, y, z] of three numbers. *)
Definition as_position (j : json) : outcome (Z * Z * Z) :=
  match j with
  | JArr [JNum x; JNum y; JNum z] => Return (x, y, z)
  | _ => Raise TypeError
  end.

(** The body of [for node in s["Nodes"]].  On anything but an object both
    branches end in [node["node_id"]], a [TypeError]. *)
Definition load_node (g : DiGraph) (node : json) : outcome DiGraph :=
  match node with
  | JObj fields =>
      match field fields "pos" with
      | Some _ =>
          i <- json_subscript node "node_id" ;;
          p <- json_subscript node "pos" ;;
          node_id <- as_number i ;;
          xyz <- as_position p ;;
          Return (snd (add_node g node_id (Some xyz)))
      | None =>
          i <- json_subscript node "node_id" ;;
          node_id <- as_number i ;;
          Return (snd (add_node g node_id None))
      end
  | _ => Raise TypeError
  end.

(** The body of [for edge in s["Edges"]]. *)
Definition load_edge (g : DiGraph) (edge : json) : outcome DiGraph :=
  s <- json_subscript edge "src" ;;
  d <- json_subscript edge "dest" ;;
  w <- json_subscript edge "w" ;;
  src <- as_number s ;;
  dest <- as_number d ;;
  weight <- as_number w ;;
  Return (snd (add_edge g src dest weight)).

(** A loop over [l] that mutates the graph: when an iteration raises, the
    graph stays as the earlier iterations left it. *)
Fixpoint mutate_each {A : Type} (step : DiGraph -> A -> outcome DiGraph)
  (l : list A) (g : DiGraph) : outcome unit * DiGraph :=
  match l with
  | [] => (Return tt, g)
  | x :: l' =>
      match step g x with
      | Return g' => mutate_each step l' g'
      | Raise e => (Raise e, g)
      | OutOfFuel => (OutOfFuel, g)
      end
  end.

(** The statements under [try:] once [json.load] has returned [s]. *)
Definition load_body (g : DiGraph) (s : json) : outcome bool * DiGraph :=
  match (n <- json_subscript s "Nodes" ;; json_iter n) with
  | Return nodes =>
      match mutate_each load_node nodes g with
      | (Return _, g1) =>
          match (e <- json_subscript s "Edges" ;; json_iter e) with
          | Return edges =>
              match mutate_each load_edge edges g1 with
              | (Return _, g2) => (Return true, g2)
              | (Raise e, g2) => (Raise e, g2)
              | (OutOfFuel, g2) => (OutOfFuel, g2)
              end
          | Raise e => (Raise e, g1)
          | OutOfFuel => (OutOfFuel, g1)
          end
      | (Raise e, g1) => (Raise e, g1)
      | (OutOfFuel, g1) => (OutOfFuel, g1)
      end
  | Raise e => (Raise e, g)
  | OutOfFuel => (OutOfFuel, g)
  end.

(** [except Exception as e: print(e); return False] *)
Definition except_return_false (r : outcome bool) : outcome bool :=
  match r with
  | Raise _ => Return false
  | _ => r
  end.

(** [load_from_json(file_name)]: the outcome and the graph it leaves.
    [file] is the local variable bound by [with open(file_name) as file];
    it is [None] while unbound, and the [finally] clause reads it. *)
Definition load_from_json (self : DiGraph) (w : filesystem) (file_name : string)
  : outcome bool * DiGraph :=
  let '(file, tried, g) :=
    match open_read w file_name with
    | Return c =>
        match json_load c with
        | Return s => let '(r, g) := load_body self s in (Some c, r, g)
        | Raise e => (Some c, Raise e, self)
        | OutOfFuel => (Some c, OutOfFuel, self)
        end
    | Raise e => (None, Raise e, self)
    | OutOfFuel => (None, OutOfFuel, self)
    end in
  let caught := except_return_false tried in
  match file with
  | Some _ => (caught, g)                     (* file.close() *)
  | None => (Raise UnboundLocalError, g)      (* file.close(), [file] unbound *)
  end.

Definition json_of_node (node : NodeData) : json :=
  match pos node with
  | None => JObj [("node_id"%string, JNum (key node))]
  | Some (x, y, z) =>
      JObj [("node_id"%string, JNum (key node));
            ("pos"%string, JArr [JNum x; JNum y; JNum z])]
  end.

Definition json_of_edge (src : Z) (dw : Z * Z) : json :=
  JObj [("src"%string, JNum src); ("w"%string, JNum (snd dw));
        ("dest"%string, JNum (fst dw))].

(** The body of [for src in self.graph.graph_edges_out.keys()]. *)
Definition save_edges_of (self : DiGraph) (edges : list json) (src : Z)
  : outcome (list json) :=
  out <- all_out_edges_of_node self src ;;
  Return (edges ++ map (json_of_edge src) out).

(** The dictionary [d] built under [try:]. *)
Definition save_doc (self : DiGraph) : outcome json :=
  let nodes := map json_of_node (values (get_all_v self)) in
  edges <- for_each (keys (graph_edges_out self)) (save_edges_of self) [] ;;
  Return (JObj [("Nodes"%string, JArr nodes); ("Edges"%string, JArr edges)]).

(** [save_to_json(file_name)]: the outcome and the file system it leaves.
    [open] is called outside the [try], so its [OSError] is not caught. *)
Definition save_to_json (self : DiGraph) (w : filesystem) (file_name : string)
  : outcome bool * filesystem :=
  match open_write w file_name with
  | Return w1 =>
      match save_doc self with
      | Return d => (Return true, write_file w1 file_name (Some d))
      | Raise e => (except_return_false (Raise e), w1)
      | OutOfFuel => (OutOfFuel, w1)
      end
  | Raise e => (Raise e, w)
  | OutOfFuel => (OutOfFuel, w)
  end.

(** ** Graphs the claims are about *)

Definition vertex (g : DiGraph) (v : Z) : Prop := contains (graph_v g) v = true.

(** [edge g u v w]: the weight stored for [u -> v] is [w]. *)
Definition edge (g : DiGraph) (u v w : Z) : Prop :=
  get (adjacency (graph_edges_out g) u) v = Some w.

(** [walk g s t d]: some directed path leads from [s] to [t] along edges of
    total weight [d]; the path may be empty ([t = s], [d = 0]) and may pass
    a vertex more than once. *)
Inductive walk (g : DiGraph) (s : Z) : Z -> Z -> Prop :=
| walk_here : vertex g s -> walk g s s 0
| walk_step (u v d w : Z) :
    walk g s u d -> edge g u v w -> walk g s v (d + w).

Definition reachable (g : DiGraph) (s t : Z) : Prop := exists d, walk g s t d.

(** Every stored out-edge leads to a vertex of the graph and has a
    non-negative weight (section 3 of the specification). *)
Definition edges_ok (g : DiGraph) : bool :=
  forallb (fun entry : Z * dict Z =>
             forallb (fun dw : Z * Z =>
                        contains (graph_v g) (fst dw) && Z.leb 0 (snd dw))
                     (snd entry))
          (graph_edges_out g).

(** The graph of the docstring of [shortest_path]. *)
Definition docstring_graph : DiGraph :=
  let g0 := snd (add_node empty_graph 0 None) in
  let g1 := snd (add_node g0 1 None) in
  let g2 := snd (add_node g1 2 None) in
  let g3 := snd (add_edge g2 0 1 1) in
  snd (add_edge g3 1 2 4).

(** Two vertices and no edge. *)
Definition two_isolated : DiGraph :=
  snd (add_node (snd (add_node empty_graph 0 None)) 1 None).

(** Two vertices joined by an edge of weight zero. *)
Definition zero_edge_graph : DiGraph := snd (add_edge two_isolated 0 1 0).

(** One vertex and no edge. *)
Definition one_vertex : DiGraph := snd (add_node empty_graph 0 None).

(** [open(file_name, 'w')] succeeds. *)
Definition writable (w : filesystem) (name : string) : bool :=
  match w name with
  | NoAccess => false
  | Absent | Content _ => true
  end.

(** The graph of the docstring with a position on vertex 0. *)
Definition placed_graph : DiGraph :=
  let g0 := snd (add_node empty_graph 0 (Some (1, 2, 3))) in
  let g1 := snd (add_node g0 1 None) in
  let g2 := snd (add_node g1 2 None) in
  let g3 := snd (add_edge g2 0 1 1) in
  snd (add_edge g3 1 2 4).

(** A file system without any file, and one whose files cannot be opened. *)
Definition no_files : filesystem := fun _ => Absent.
Definition locked_files : filesystem := fun _ => NoAccess.

(** ** Graphs that can be stored

    The part of the graph invariants of section 3 that saving and loading
    rely on: dictionaries have no key twice, a vertex is filed under its own
    id, and every stored out-edge joins two distinct vertices of the graph
    with a non-negative weight. *)

Fixpoint nodupb (l : list Z) : bool :=
  match l with
  | [] => true
  | x :: l' => negb (mem x l') && nodupb l'
  end.

Definition well_formed (g : DiGraph) : bool :=
  nodupb (keys (graph_v g))
  && forallb (fun kn : Z * NodeData => Z.eqb (key (snd kn)) (fst kn)) (graph_v g)
  && nodupb (keys (graph_edges_out g))
  && forallb (fun entry : Z * dict Z =>
                contains (graph_v g) (fst entry)
                && nodupb (keys (snd entry))
                && forallb (fun dw : Z * Z =>
                              contains (graph_v g) (fst dw)
                              && Z.leb 0 (snd dw)
                              && negb (Z.eqb (fst entry) (fst dw)))
                           (snd entry))
             (graph_edges_out g).

(** The position stored for a vertex: [None] without the vertex,
    [Some None] for a vertex whose position is not set. *)
Definition position (g : DiGraph) (v : Z) : option (option (Z * Z * Z)) :=
  option_map pos (get (graph_v g) v).

(** Same vertex ids, same positions, same [(src, dest, weight)] triples. *)
Record same_graph (g g' : DiGraph) : Prop := mkSame {
  same_vertices : forall v, vertex g' v <-> vertex g v;
  same_positions : forall v, position g' v = position g v;
  same_edges : forall s d w, edge g' s d w <-> edge g s d w
}.

(** The document [save_to_json] writes. *)
Definition document (nodes edges : list json) : json :=
  JObj [("Nodes"%string, JArr nodes); ("Edges"%string, JArr edges)].

(** The stored out-edges in the order [save_to_json] goes through them. *)
Definition triples (g : DiGraph) : list (Z * (Z * Z)) :=
  flat_map (fun src => map (fun dw => (src, dw))
                           (adjacency (graph_edges_out g) src))
           (keys (graph_edges_out g)).

Definition json_of_triple (t : Z * (Z * Z)) : json := json_of_edge (fst t) (snd t).

Definition add_nodes (ns : list NodeData) (g : DiGraph) : DiGraph :=
  fold_left (fun g n => snd (add_node g (key n) (pos n))) ns g.

Definition add_edges (ts : list (Z * (Z * Z))) (g : DiGraph) : DiGraph :=
  fold_left (fun g t => snd (add_edge g (fst t) (fst (snd t)) (snd (snd t)))) ts g.

(** Triples that [add_edge] accepts on [g], and lists of triples that hold
    one weight at most for a pair of endpoints. *)
Definition valid_triples (ts : list (Z * (Z * Z))) (g : DiGraph) : Prop :=
  forall s d w, In (s, (d, w)) ts ->
                vertex g s /\ vertex g d /\ 0 <= w /\ s <> d.

Definition functional (ts : list (Z * (Z * Z))) : Prop :=
  forall s d w w', In (s, (d, w)) ts -> In (s, (d, w')) ts -> w = w'.

(** ** Invariants of the drain loop of [shortest_path] *)

(** The tag a graph stores for a vertex, if the vertex exists. *)
Definition tags (g : DiGraph) (v : Z) : option dist :=
  option_map tag (get (graph_v g) v).

Definition tg (st : sp_state) (v : Z) : option dist := tags (graph st) v.

(** What holds whenever the loop condition is tested, for the graph [g0]
    the call started with and the source [s].  [pend u v] marks the edges
    the running [for] loop has yet to look at; [stamp] orders the vertices
    by the moment their tag was last written. *)
Record Inv (g0 : DiGraph) (s : Z) (stamp : Z -> nat) (pend : Z -> Z -> Prop)
  (st : sp_state) : Prop := mkInv {
  inv_edges : graph_edges_out (graph st) = graph_edges_out g0;
  inv_keys : forall v, contains (graph_v (graph st)) v = contains (graph_v g0) v;
  inv_source : tg st s = Some (Fin 0);
  inv_walk : forall v d, tg st v = Some (Fin d) -> walk g0 s v d;
  inv_heap : forall t v, In (t, v) (heap_min st) -> exists d, tg st v = Some (Fin d);
  inv_settled : forall u v w du,
    edge g0 u v w -> tg st u = Some (Fin du) ->
    In u (map snd (heap_min st)) \/ pend u v \/
    exists dv, tg st v = Some (Fin dv) /\ dv <= du + w;
  inv_prev : forall v u,
    get (prev_nodes st) v = Some u ->
    exists du dv, tg st u = Some (Fin du) /\ tg st v = Some (Fin dv) /\
                  (du < dv \/ (du = dv /\ (stamp u < stamp v)%nat));
  inv_has_prev : forall v d,
    tg st v = Some (Fin d) -> v <> s -> get (prev_nodes st) v <> None
}.

Definition no_pending : Z -> Z -> Prop := fun _ _ => False.
Definition pending (u : Z) (rest : list Z) : Z -> Z -> Prop :=
  fun x y => x = u /\ In y rest.

(** The measure that decreases with every turn of the drain loop, in
    lexicographic order: the number of tags still [math.inf], then twice
    the sum of the finite tags plus the length of the heap. *)
Definition is_inf (t : dist) : bool :=
  match t with Inf => true | Fin _ => false end.

Definition fin_part (t : dist) : nat :=
  match t with Fin d => Z.to_nat d | Inf => 0%nat end.

Definition count_inf (nodes : dict NodeData) : nat :=
  list_sum (map (fun kv => if is_inf (tag (snd kv)) then 1%nat else 0%nat) nodes).

Definition sum_fin (nodes : dict NodeData) : nat :=
  list_sum (map (fun kv => fin_part (tag (snd kv))) nodes).

Definition mu1 (st : sp_state) : nat := count_inf (graph_v (graph st)).
Definition mu2 (st : sp_state) : nat :=
  (2 * sum_fin (graph_v (graph st)) + length (heap_min st))%nat.

Definition lex_le (st' st : sp_state) : Prop :=
  (mu1 st' < mu1 st \/ (mu1 st' = mu1 st /\ mu2 st' <= mu2 st))%nat.

Definition lex_lt (st' st : sp_state) : Prop :=
  (mu1 st' < mu1 st \/ (mu1 st' = mu1 st /\ mu2 st' < mu2 st))%nat.

(** ** What the searches of [bfs_out] and [bfs_in] compute *)

(** [arc m u v]: the adjacency mapping [m] lists [v] among the neighbours of
    [u]. *)
Definition arc (m : dict (dict Z)) (u v : Z) : Prop :=
  In v (keys (adjacency m u)).

(** [reach m s t]: [t] is [s] or can be reached from [s] along arcs of [m]. *)
Inductive reach (m : dict (dict Z)) (s : Z) : Z -> Prop :=
| reach_here : reach m s s
| reach_step (u v : Z) : reach m s u -> arc m u v -> reach m s v.

(** Every neighbour listed by [m] is a vertex of [g]. *)
Definition arcs_ok (g : DiGraph) (m : dict (dict Z)) : bool :=
  forallb (fun entry : Z * dict Z =>
             forallb (fun dw : Z * Z => contains (graph_v g) (fst dw))
                     (snd entry))
          m.

(** The two adjacency mappings mirror each other: an out-neighbour lists
    its source among its in-neighbours, and the other way round. *)
Definition mirrored (g : DiGraph) : bool :=
  forallb (fun entry : Z * dict Z =>
             forallb (fun dw : Z * Z =>
                        mem (fst entry)
                            (keys (adjacency (graph_edges_in g) (fst dw))))
                     (snd entry))
          (graph_edges_out g)
  && forallb (fun entry : Z * dict Z =>
                forallb (fun dw : Z * Z =>
                           mem (fst entry)
                               (keys (adjacency (graph_edges_out g) (fst dw))))
                        (snd entry))
             (graph_edges_in g).

(** The neighbour function handed to [bfs]: the accessor of [g] for [m]. *)
Definition neighbours_of (g : DiGraph) (m : dict (dict Z)) (v : Z)
  : outcome (dict Z) :=
  if contains (graph_v g) v then Return (adjacency m v) else Raise KeyError.

(** What holds whenever the loop condition of a search from [s] is tested;
    [pend u v] marks the arcs the running [for] loop has yet to look at. *)
Record BInv (g : DiGraph) (m : dict (dict Z)) (s : Z) (pend : Z -> Z -> Prop)
  (st : bfs_state) : Prop := mkBInv {
  binv_keys : forall x, contains (fst st) x = contains (graph_v g) x;
  binv_nodup : NoDup (keys (fst st));
  binv_start : get (fst st) s = Some true;
  binv_reach : forall x, get (fst st) x = Some true -> reach m s x;
  binv_queue : forall x, In x (snd st) -> get (fst st) x = Some true;
  binv_closed : forall u v,
    get (fst st) u = Some true -> arc m u v ->
    In u (snd st) \/ pend u v \/ get (fst st) v = Some true
}.

Definition count_false (vis : dict bool) : nat :=
  list_sum (map (fun kv : Z * bool => if snd kv then 0%nat else 1%nat) vis).

(** Twice the number of unvisited vertices plus the length of the queue. *)
Definition bfs_measure (st : bfs_state) : nat :=
  (2 * count_false (fst st) + length (snd st))%nat.

(** A cycle 0 -> 1 -> 2 -> 0 with a tail 2 -> 3. *)
Definition cycle_graph : DiGraph :=
  let g0 := snd (add_node empty_graph 0 None) in
  let g1 := snd (add_node g0 1 None) in
  let g2 := snd (add_node g1 2 None) in
  let g3 := snd (add_node g2 3 None) in
  let g4 := snd (add_edge g3 0 1 1) in
  let g5 := snd (add_edge g4 1 2 2) in
  let g6 := snd (add_edge g5 2 0 3) in
  snd (add_edge g6 2 3 1).

(** A file system with one file, [bad.json], whose content does not parse. *)
Definition junk_files : filesystem :=
  fun n => if String.eqb n "bad.json" then Content None else Absent.

(** The file system in which [name] holds the JSON value [j]. *)
Definition one_file (name : string) (j : json) : filesystem :=
  write_file no_files name (Some j).

(** [keeps g g']: every vertex of [g] is a vertex of [g'] with the position
    it has in [g]. *)
Definition keeps (g g' : DiGraph) : Prop :=
  forall v, vertex g v -> position g' v = position g v.

(** A document that gives vertex 0 a position and adds vertex 7. *)
Definition other_document : json :=
  document [JObj [("node_id"%string, JNum 0);
                  ("pos"%string, JArr [JNum 9; JNum 9; JNum 9])];
            JObj [("node_id"%string, JNum 7)]]
           [].

(** ** The path [shortest_path] returns *)

(** Every entry [prev_nodes[v] = u] records an edge [u -> v] of the graph
    [g0] along which the tag of [v] was set. *)
Definition prev_ok (g0 : DiGraph) (st : sp_state) : Prop :=
  graph_edges_out (graph st) = graph_edges_out g0 /\
  forall v u, get (prev_nodes st) v = Some u ->
    exists w du dv,
      edge g0 u v w /\ tg st u = Some (Fin du) /\ tg st v = Some (Fin dv) /\
      du + w <= dv.

(** [path g x v p d]: the list [p] goes from [x] to [v] along edges of [g]
    of total weight [d]. *)
Inductive path (g : DiGraph) (x : Z) : Z -> list Z -> Z -> Prop :=
| path_one : vertex g x -> path g x x [x] 0
| path_snoc (u v : Z) (p : list Z) (d w : Z) :
    path g x u p d -> edge g u v w -> path g x v (p ++ [v]) (d + w).

(** [back_path g v x li d]: the list [li] goes from [v] back to [x], each
    element followed by one it has an edge from, of total weight [d]. *)
Inductive back_path (g : DiGraph) : Z -> Z -> list Z -> Z -> Prop :=
| back_one (v : Z) : vertex g v -> back_path g v v [v] 0
| back_cons (v u x : Z) (li : list Z) (d w : Z) :
    edge g u v w -> back_path g u x li d ->
    back_path g v x (v :: li) (d + w).

(** Every stored out-edge leads to a vertex and has a positive weight. *)
Definition edges_positive (g : DiGraph) : bool :=
  forallb (fun entry : Z * dict Z =>
             forallb (fun dw : Z * Z =>
                        contains (graph_v g) (fst dw) && Z.ltb 0 (snd dw))
                     (snd entry))
          (graph_edges_out g).

(** The weighted graph 0 -> 1 (4), 0 -> 2 (1), 2 -> 1 (2), 1 -> 3 (1). *)
Definition detour_graph : DiGraph :=
  let g0 := snd (add_node empty_graph 0 None) in
  let g1 := snd (add_node g0 1 None) in
  let g2 := snd (add_node g1 2 None) in
  let g3 := snd (add_node g2 3 None) in
  let g4 := snd (add_edge g3 0 1 4) in
  let g5 := snd (add_edge g4 0 2 1) in
  let g6 := snd (add_edge g5 2 1 2) in
  snd (add_edge g6 1 3 1).

(** The part of [shortest_path] before the path is rebuilt: the tags are
    initialised and the heap is drained. *)
Definition shortest_path_loops (fuel : nat) (self : DiGraph) (id1 : Z)
  : outcome sp_state :=
  st0 <- sp_init self id1 ;;
  drain fuel [] st0.

(** [same_structure g g']: [g'] has the adjacency mappings of [g] and the
    vertices of [g] with their positions; only tags may differ. *)
Definition same_structure (g g' : DiGraph) : Prop :=
  graph_edges_out g' = graph_edges_out g /\
  graph_edges_in g' = graph_edges_in g /\
  keys (graph_v g') = keys (graph_v g) /\
  forall v, position g' v = position g v.

(** ** [shortest_path] on float weights

    Weights read from a JSON file are Python floats, and [alt_path] is then
    an IEEE 754 double sum: it is rounded and it can overflow to
    [math.inf].  This module repeats the translation of [shortest_path]
    with doubles for weights and tags; [nodes[id1].tag = 0] stores the
    integer zero, which Python compares and adds as [0.0]. *)

Module FloatWeights.

(** Modelled from the spec: the [NodeData] class, with a float tag. *)
Record NodeData : Type := mkNode {
  key : Z;
  pos : option (float * float * float);
  tag : float
}.

(** Modelled from the spec: the [DiGraph] class, with float weights. *)
Record DiGraph : Type := mkGraph {
  graph_v : dict NodeData;
  graph_edges_out : dict (dict float);
  graph_edges_in : dict (dict float)
}.

Definition get_all_v (g : DiGraph) : dict NodeData := graph_v g.

Definition adjacency (m : dict (dict float)) (v : Z) : dict float :=
  match get m v with
  | Some d => d
  | None => []
  end.

(** Modelled from the spec: [DiGraph.all_out_edges_of_node]. *)
Definition all_out_edges_of_node (g : DiGraph) (v : Z) : outcome (dict float) :=
  if contains (graph_v g) v then Return (adjacency (graph_edges_out g) v)
  else Raise KeyError.

Definition tag_of (nodes : dict NodeData) (v : Z) : outcome float :=
  n <- subscript nodes v ;; Return (tag n).

Definition set_tag (nodes : dict NodeData) (v : Z) (t : float)
  : outcome (dict NodeData) :=
  n <- subscript nodes v ;;
  Return (set nodes v (mkNode (key n) (pos n) t)).

Definition set_node_tag (g : DiGraph) (v : Z) (t : float) : outcome DiGraph :=
  nodes' <- set_tag (graph_v g) v t ;;
  Return (mkGraph nodes' (graph_edges_out g) (graph_edges_in g)).

(** [a > b] on doubles. *)
Definition gtb (a b : float) : bool := PrimFloat.ltb b a.

Definition heap_item : Type := float * Z.

(** Python's tuple comparison [a <= b]. *)
Definition item_leb (a b : heap_item) : bool :=
  if gtb (fst b) (fst a) then true
  else if gtb (fst a) (fst b) then false
  else Z.leb (snd a) (snd b).

Fixpoint heappush (h : list heap_item) (x : heap_item) : list heap_item :=
  match h with
  | [] => [x]
  | y :: h' => if item_leb x y then x :: h else y :: heappush h' x
  end.

Definition heappop (h : list heap_item) : option (heap_item * list heap_item) :=
  match h with
  | [] => None
  | x :: h' => Some (x, h')
  end.

Record sp_state : Type := mkState {
  graph : DiGraph;
  prev_nodes : dict Z;
  heap_min : list heap_item
}.

(** The body of [for node_id in self.graph.all_out_edges_of_node(v).keys()]. *)
Definition relax (visited : list Z) (v : Z) (st : sp_state) (node_id : Z)
  : outcome sp_state :=
  if negb (mem node_id visited) then
    out_v <- all_out_edges_of_node (graph st) v ;;
    if mem node_id (keys out_v) then
      tv <- tag_of (graph_v (graph st)) v ;;
      out_v' <- all_out_edges_of_node (graph st) v ;;
      w <- subscript out_v' node_id ;;
      let alt_path := PrimFloat.add tv w in
      tn <- tag_of (get_all_v (graph st)) node_id ;;
      if gtb tn alt_path then
        g' <- set_node_tag (graph st) node_id alt_path ;;
        Return (mkState g'
                        (set (prev_nodes st) node_id v)
                        (heappush (heap_min st) (alt_path, node_id)))
      else Return st
    else Return st
  else Return st.

(** [while len(heap_min) > 0: ...] *)
Fixpoint drain (fuel : nat) (visited : list Z) (st : sp_state) : outcome sp_state :=
  match heappop (heap_min st) with
  | None => Return st
  | Some ((_, v), h') =>
      match fuel with
      | O => OutOfFuel
      | S fuel' =>
          out_v <- all_out_edges_of_node (graph st) v ;;
          st' <- for_each (keys out_v) (relax visited v)
                          (mkState (graph st) (prev_nodes st) h') ;;
          drain fuel' visited st'
      end
  end.

(** [while self.graph.get_all_v()[node_key].tag > 0: ...] *)
Fixpoint reconstruct (fuel : nat) (st : sp_state) (node_key : Z) (li_return : list Z)
  : outcome (list Z) :=
  t <- tag_of (get_all_v (graph st)) node_key ;;
  if gtb t PrimFloat.zero then
    match fuel with
    | O => OutOfFuel
    | S fuel' =>
        p <- subscript (prev_nodes st) node_key ;;
        reconstruct fuel' st p (li_return ++ [node_key])
    end
  else Return (li_return ++ [node_key]).

Definition sp_init (self : DiGraph) (id1 : Z) : outcome sp_state :=
  g1 <- for_each (keys (graph_v self))
                 (fun g x => set_node_tag g x PrimFloat.infinity) self ;;
  g2 <- set_node_tag g1 id1 PrimFloat.zero ;;
  t0 <- tag_of (graph_v g2) id1 ;;
  Return (mkState g2 [] (heappush [] (t0, id1))).

(** [shortest_path(id1, id2)]; [Return None] is Python's [None]. *)
Definition shortest_path (fuel : nat) (self : DiGraph) (id1 id2 : Z)
  : outcome (option (float * list Z)) :=
  let nodes := get_all_v self in
  if negb (contains nodes id1) || negb (contains nodes id2) then Return None
  else
    let visited := [] in
    st0 <- sp_init self id1 ;;
    st <- drain fuel visited st0 ;;
    li_return <- reconstruct fuel st id2 [] ;;
    t <- tag_of (get_all_v (graph st)) id2 ;;
    Return (Some (t, rev li_return)).




End FloatWeights.

(** * Lemmas *)

(** ** Dictionaries *)

Section DictFacts.
Context {V : Type}.
Implicit Types (d : dict V) (k : Z) (v : V).

Lemma get_set_eq d k v : get (set d k v) k = Some v.
Proof.
  induction d as [|[k' v'] d IH]; simpl.
  - now rewrite Z.eqb_refl.
  - destruct (Z.eqb k k') eqn:E; simpl; rewrite E; auto.
Qed.

Lemma get_set_ne d k k' v : k <> k' -> get (set d k v) k' = get d k'.
Proof.
  intros Hne. induction d as [|[k0 v0] d IH]; simpl.
  - destruct (Z.eqb k' k) eqn:E; auto. apply Z.eqb_eq in E. congruence.
  - destruct (Z.eqb k k0) eqn:E; simpl.
    + apply Z.eqb_eq in E. subst k0.
      destruct (Z.eqb k' k) eqn:E'; auto.
      apply Z.eqb_eq in E'. congruence.
    + now rewrite IH.
Qed.

Lemma get_set d k k' v :
  get (set d k v) k' = if Z.eqb k' k then Some v else get d k'.
Proof.
  destruct (Z.eqb k' k) eqn:E.
  - apply Z.eqb_eq in E. subst. apply get_set_eq.
  - apply Z.eqb_neq in E. apply get_set_ne. congruence.
Qed.

Lemma get_Some_In d k v : get d k = Some v -> In (k, v) d.
Proof.
  induction d as [|[k' v'] d IH]; simpl; [discriminate|].
  destruct (Z.eqb k k') eqn:E; intros H.
  - apply Z.eqb_eq in E. left. congruence.
  - right. auto.
Qed.

Lemma get_None_keys d k : get d k = None <-> ~ In k (keys d).
Proof.
  induction d as [|[k' v'] d IH]; simpl.
  - tauto.
  - destruct (Z.eqb k k') eqn:E.
    + apply Z.eqb_eq in E. subst. split; [discriminate | tauto].
    + apply Z.eqb_neq in E. rewrite IH. split; intros H; [|tauto].
      intros [H1|H1]; [congruence | tauto].
Qed.

Lemma contains_keys d k : contains d k = true <-> In k (keys d).
Proof.
  unfold contains. pose proof (get_None_keys d k) as H.
  destruct (get d k); split; intros H1; auto; try discriminate.
  - destruct (in_dec Z.eq_dec k (keys d)); auto.
    apply H in n. discriminate.
  - exfalso. apply H; auto.
Qed.

Lemma contains_set d k k' v :
  contains (set d k v) k' = Z.eqb k' k || contains d k'.
Proof.
  unfold contains. rewrite get_set. destruct (Z.eqb k' k); auto.
Qed.

(** Writing to an existing key replaces one entry and moves nothing. *)
Lemma set_split d k v0 v :
  get d k = Some v0 ->
  exists d1 d2, d = d1 ++ (k, v0) :: d2 /\ set d k v = d1 ++ (k, v) :: d2.
Proof.
  induction d as [|[k' v'] d IH]; simpl; [discriminate|].
  destruct (Z.eqb k k') eqn:E; intros H.
  - apply Z.eqb_eq in E. subst k'. inversion H; subst.
    now exists [], d.
  - destruct (IH H) as (d1 & d2 & -> & ->).
    now exists ((k', v') :: d1), d2.
Qed.

Lemma get_In_NoDup d k v : NoDup (keys d) -> In (k, v) d -> get d k = Some v.
Proof.
  induction d as [|[k' v'] d IH]; simpl; [tauto|].
  intros Hnd [H|H].
  - inversion H; subst. now rewrite Z.eqb_refl.
  - inversion Hnd as [|? ? Hnotin Hnd']; subst.
    destruct (Z.eqb k k') eqn:E; auto.
    apply Z.eqb_eq in E. subst k'. exfalso. apply Hnotin.
    change k with (fst (k, v)). now apply in_map.
Qed.
End DictFacts.

Lemma mem_In x l : mem x l = true <-> In x l.
Proof.
  unfold mem. rewrite existsb_exists. split.
  - intros (y & Hy & E). apply Z.eqb_eq in E. now subst.
  - intros H. exists x. split; auto. apply Z.eqb_refl.
Qed.

(** ** The heap *)

Lemma heappush_In h x y : In y (heappush h x) <-> y = x \/ In y h.
Proof.
  induction h as [|z h IH]; simpl.
  - intuition.
  - destruct (item_leb x z); simpl; rewrite ?IH; intuition.
Qed.

Lemma heappush_length h x : length (heappush h x) = S (length h).
Proof.
  induction h as [|z h IH]; simpl; auto.
  destruct (item_leb x z); simpl; auto.
Qed.

(** ** Tags *)

Lemma tag_of_tags g v :
  tag_of (graph_v g) v =
  match tags g v with Some t => Return t | None => Raise KeyError end.
Proof.
  unfold tag_of, tags, subscript. destruct (get (graph_v g) v); reflexivity.
Qed.

Lemma tags_contains g v t : tags g v = Some t -> contains (graph_v g) v = true.
Proof.
  unfold tags, contains. destruct (get (graph_v g) v); [auto | discriminate].
Qed.

Lemma contains_tags g v : contains (graph_v g) v = true -> exists t, tags g v = Some t.
Proof.
  unfold tags, contains.
  destruct (get (graph_v g) v); [intros _; eexists; reflexivity | discriminate].
Qed.

(** A tag write succeeds on an existing vertex, changes that tag and
    nothing else. *)
Lemma set_node_tag_spec g v t t0 :
  tags g v = Some t0 ->
  exists g', set_node_tag g v t = Return g' /\
    graph_edges_out g' = graph_edges_out g /\
    graph_edges_in g' = graph_edges_in g /\
    (forall x, tags g' x = if Z.eqb x v then Some t else tags g x) /\
    (forall x, contains (graph_v g') x = contains (graph_v g) x) /\
    keys (graph_v g') = keys (graph_v g).
Proof.
  unfold tags, set_node_tag, set_tag, subscript.
  destruct (get (graph_v g) v) as [n|] eqn:E; [|discriminate].
  intros _. simpl. eexists. split; [reflexivity|]. simpl.
  repeat split; auto.
  - intros x. rewrite get_set. destruct (Z.eqb x v); reflexivity.
  - intros x. rewrite contains_set. destruct (Z.eqb x v) eqn:Ex; auto.
    apply Z.eqb_eq in Ex. subst. unfold contains. now rewrite E.
  - destruct (set_split (graph_v g) v n (mkNode (key n) (pos n) t) E)
      as (d1 & d2 & H1 & H2).
    rewrite H2, H1. unfold keys. now rewrite !map_app.
Qed.

Lemma count_inf_app d1 d2 : count_inf (d1 ++ d2) = (count_inf d1 + count_inf d2)%nat.
Proof. unfold count_inf. now rewrite map_app, list_sum_app. Qed.

Lemma sum_fin_app d1 d2 : sum_fin (d1 ++ d2) = (sum_fin d1 + sum_fin d2)%nat.
Proof. unfold sum_fin. now rewrite map_app, list_sum_app. Qed.

(** How a tag write moves the two sums of the measure. *)
Lemma set_node_tag_measure g v t t0 g' :
  tags g v = Some t0 ->
  set_node_tag g v t = Return g' ->
  (count_inf (graph_v g') + (if is_inf t0 then 1 else 0)
   = count_inf (graph_v g) + (if is_inf t then 1 else 0))%nat /\
  (sum_fin (graph_v g') + fin_part t0 = sum_fin (graph_v g) + fin_part t)%nat.
Proof.
  unfold tags, set_node_tag, set_tag, subscript.
  destruct (get (graph_v g) v) as [n|] eqn:E; [|discriminate].
  simpl. intros Ht H. inversion Ht; subst t0. inversion H; subst g'. clear H Ht.
  simpl.
  destruct (set_split (graph_v g) v n (mkNode (key n) (pos n) t) E)
    as (d1 & d2 & H1 & H2).
  rewrite H2, H1.
  rewrite !count_inf_app, !sum_fin_app.
  unfold count_inf, sum_fin. simpl. lia.
Qed.

(** ** Walks in a graph with non-negative weights *)

Lemma edges_ok_edge g u v w :
  edges_ok g = true -> edge g u v w -> vertex g v /\ 0 <= w.
Proof.
  unfold edges_ok, edge, adjacency, vertex. intros Hok H.
  destruct (get (graph_edges_out g) u) as [d|] eqn:E; [|discriminate].
  apply get_Some_In in E. apply get_Some_In in H.
  rewrite forallb_forall in Hok. specialize (Hok _ E). simpl in Hok.
  rewrite forallb_forall in Hok. specialize (Hok _ H). simpl in Hok.
  apply andb_true_iff in Hok. destruct Hok as [H1 H2].
  split; auto. now apply Z.leb_le.
Qed.

Lemma walk_nonneg g s t d : edges_ok g = true -> walk g s t d -> 0 <= d.
Proof.
  intros Hok H. induction H as [|u v d w _ IH He]; [lia|].
  apply (edges_ok_edge _ _ _ _ Hok) in He. lia.
Qed.

Lemma walk_vertex g s t d : edges_ok g = true -> walk g s t d -> vertex g t.
Proof.
  intros Hok H. destruct H as [|u v d w _ He]; auto.
  now apply (edges_ok_edge _ _ _ _ Hok) in He.
Qed.

(** ** One relaxation *)

Section Drain.
Variable g0 : DiGraph.
Variable s : Z.
Hypothesis Hok : edges_ok g0 = true.

Lemma out_edges_inv stamp pend st u t :
  Inv g0 s stamp pend st -> tg st u = Some t ->
  all_out_edges_of_node (graph st) u = Return (adjacency (graph_edges_out g0) u).
Proof.
  intros HI Hu. unfold all_out_edges_of_node.
  rewrite (tags_contains _ _ _ Hu). now rewrite (inv_edges _ _ _ _ _ HI).
Qed.

Lemma key_has_edge u v :
  In v (keys (adjacency (graph_edges_out g0) u)) -> exists w, edge g0 u v w.
Proof.
  intros Hin. unfold edge.
  destruct (get (adjacency (graph_edges_out g0) u) v) as [w|] eqn:E; eauto.
  apply get_None_keys in E. contradiction.
Qed.

Lemma tg_vertex stamp pend st v :
  Inv g0 s stamp pend st -> vertex g0 v -> exists t, tg st v = Some t.
Proof.
  intros HI Hv. apply contains_tags.
  now rewrite (inv_keys _ _ _ _ _ HI).
Qed.

Lemma relax_step stamp u rest v st du :
  Inv g0 s stamp (pending u (v :: rest)) st ->
  tg st u = Some (Fin du) ->
  In v (keys (adjacency (graph_edges_out g0) u)) ->
  exists st' stamp',
    relax [] u st v = Return st' /\
    Inv g0 s stamp' (pending u rest) st' /\
    tg st' u = Some (Fin du) /\
    lex_le st' st.
Proof.
  intros HI Hu Hin.
  destruct (key_has_edge _ _ Hin) as [w He].
  destruct (edges_ok_edge _ _ _ _ Hok He) as [Hv Hw].
  destruct (tg_vertex _ _ _ _ HI Hv) as [tn Htn].
  assert (Hdu : 0 <= du)
    by (eapply walk_nonneg; [exact Hok | eapply inv_walk; eauto]).
  unfold relax. simpl mem. cbn [negb].
  rewrite (out_edges_inv _ _ _ _ _ HI Hu). cbn [bind].
  assert (Hm : mem v (keys (adjacency (graph_edges_out g0) u)) = true)
    by now apply mem_In.
  rewrite Hm. unfold get_all_v. rewrite !tag_of_tags.
  fold (tg st u). fold (tg st v). rewrite Hu, Htn. cbn [bind].
  unfold subscript. unfold edge in He. rewrite He. cbn [bind dist_add].
  destruct (dist_gtb tn (Fin (du + w))) eqn:G.
  - (* the tag of [v] is lowered *)
    destruct (set_node_tag_spec (graph st) v (Fin (du + w)) tn Htn)
      as (g' & Hset & He' & _ & Htags & Hc & _).
    rewrite Hset. cbn [bind].
    assert (Hvu : v <> u).
    { intros ->. unfold tg in Htn, Hu. rewrite Hu in Htn.
      inversion Htn; subst tn. simpl in G. apply Z.ltb_lt in G. lia. }
    assert (Hvs : v <> s).
    { intros ->. pose proof (inv_source _ _ _ _ _ HI) as H0.
      unfold tg in H0, Htn. rewrite H0 in Htn. inversion Htn; subst tn.
      simpl in G. apply Z.ltb_lt in G. lia. }
    assert (Htg : forall x, tg (mkState g' (set (prev_nodes st) v u)
                                  (heappush (heap_min st) (Fin (du + w), v))) x
                            = if Z.eqb x v then Some (Fin (du + w)) else tg st x)
      by (intros x; unfold tg; simpl; apply Htags).
    eexists. exists (fun x => if Z.eqb x v then S (stamp u) else stamp x).
    split; [reflexivity|]. split; [|split].
    + constructor; simpl.
      * rewrite He'. eapply inv_edges; eauto.
      * intros x. rewrite Hc. eapply inv_keys; eauto.
      * rewrite Htg. destruct (Z.eqb s v) eqn:E.
        -- apply Z.eqb_eq in E. congruence.
        -- eapply inv_source; eauto.
      * intros x d. rewrite Htg. destruct (Z.eqb x v) eqn:E.
        -- apply Z.eqb_eq in E. subst x. intros H. inversion H; subst d.
           eapply walk_step; eauto. eapply inv_walk; eauto.
        -- eapply inv_walk; eauto.
      * intros t x Hx. rewrite Htg. destruct (Z.eqb x v) eqn:E; [eauto|].
        apply heappush_In in Hx. destruct Hx as [Hx|Hx].
        -- inversion Hx; subst. rewrite Z.eqb_refl in E. discriminate.
        -- eapply inv_heap; eauto.
      * intros x y w' dx Hxy. rewrite !Htg. destruct (Z.eqb x v) eqn:E.
        -- apply Z.eqb_eq in E. subst x. intros _. left.
           apply in_map_iff. exists (Fin (du + w), v). split; auto.
           apply heappush_In. now left.
        -- intros Hx.
           destruct (inv_settled _ _ _ _ _ HI _ _ _ _ Hxy Hx) as [H|[H|H]].
           ++ left. apply in_map_iff in H. destruct H as (it & H1 & H2).
              apply in_map_iff. exists it. split; auto.
              apply heappush_In. now right.
           ++ destruct H as [-> [<-|H]].
              ** right. right. rewrite Z.eqb_refl.
                 unfold edge in Hxy. rewrite He in Hxy. inversion Hxy; subst w'.
                 unfold tg in Hx, Hu. rewrite Hu in Hx. inversion Hx; subst dx.
                 eexists. split; [reflexivity | lia].
              ** right. left. now split.
           ++ destruct H as (dy & Hy & Hle). right. right.
              destruct (Z.eqb y v) eqn:Ey.
              ** apply Z.eqb_eq in Ey. subst y. unfold tg in Hy, Htn.
                 rewrite Htn in Hy. inversion Hy; subst tn. simpl in G.
                 apply Z.ltb_lt in G. eexists. split; [reflexivity | lia].
              ** eauto.
      * intros c p. rewrite get_set, !Htg. destruct (Z.eqb c v) eqn:E.
        -- intros H. inversion H; subst p. exists du, (du + w).
           destruct (Z.eqb u v) eqn:Eu.
           { apply Z.eqb_eq in Eu. congruence. }
           split; [exact Hu|]. split; [reflexivity|]. lia.
        -- intros H. destruct (inv_prev _ _ _ _ _ HI _ _ H) as (dp & dc & Hp & Hc' & Hlt).
           rewrite Hc'. destruct (Z.eqb p v) eqn:Ep.
           ++ apply Z.eqb_eq in Ep. subst p. unfold tg in Hp, Htn.
              rewrite Htn in Hp. inversion Hp; subst tn. simpl in G.
              apply Z.ltb_lt in G. exists (du + w), dc.
              split; [reflexivity|]. split; [reflexivity|]. lia.
           ++ exists dp, dc. auto.
      * intros x d. rewrite get_set, Htg. destruct (Z.eqb x v) eqn:E.
        -- discriminate.
        -- eapply inv_has_prev; eauto.
    + rewrite Htg. destruct (Z.eqb u v) eqn:E; auto.
      apply Z.eqb_eq in E. congruence.
    + destruct (set_node_tag_measure _ _ _ _ _ Htn Hset) as [H1 H2].
      unfold lex_le, mu1, mu2. simpl. rewrite heappush_length.
      destruct tn as [dv|]; simpl in *.
      * apply Z.ltb_lt in G. right. split; lia.
      * left. lia.
  - (* nothing changes *)
    exists st, stamp. split; [reflexivity|]. split; [|split]; auto.
    + destruct HI as [I1 I2 I3 I4 I5 I6 I7 I8]. constructor; auto.
      intros x y w' dx Hxy Hx.
      destruct (I6 _ _ _ _ Hxy Hx) as [H|[H|H]]; auto.
      destruct H as [-> [<-|H]].
      * right. right. unfold edge in Hxy. rewrite He in Hxy.
        inversion Hxy; subst w'.
        unfold tg in Hx, Hu. rewrite Hu in Hx. inversion Hx; subst dx.
        destruct tn as [dv|]; simpl in G; [|discriminate].
        apply Z.ltb_ge in G. eauto.
      * right. left. now split.
    + unfold lex_le. right. split; lia.
Qed.

Lemma lex_le_trans a b c : lex_le a b -> lex_le b c -> lex_le a c.
Proof. unfold lex_le. lia. Qed.

Lemma lex_le_refl a : lex_le a a.
Proof. unfold lex_le. lia. Qed.

Lemma Inv_no_pending stamp u st :
  Inv g0 s stamp (pending u []) st -> Inv g0 s stamp no_pending st.
Proof.
  intros [I1 I2 I3 I4 I5 I6 I7 I8]. constructor; auto.
  intros x y w dx Hxy Hx. destruct (I6 _ _ _ _ Hxy Hx) as [H|[H|H]]; auto.
  destruct H as [_ []].
Qed.

(** ** The [for] loop over the out-edges of the popped vertex *)

Lemma relax_all u du rest :
  forall stamp st,
    (forall y, In y rest -> In y (keys (adjacency (graph_edges_out g0) u))) ->
    Inv g0 s stamp (pending u rest) st ->
    tg st u = Some (Fin du) ->
    exists st' stamp',
      for_each rest (relax [] u) st = Return st' /\
      Inv g0 s stamp' no_pending st' /\
      lex_le st' st.
Proof.
  induction rest as [|v rest IH]; intros stamp st Hsub HI Hu.
  - exists st, stamp. split; [reflexivity|]. split.
    + eapply Inv_no_pending; eauto.
    + apply lex_le_refl.
  - destruct (relax_step stamp u rest v st du HI Hu) as (st1 & stamp1 & Hr & HI1 & Hu1 & Hle1).
    { apply Hsub. now left. }
    destruct (IH stamp1 st1) as (st2 & stamp2 & Hf & HI2 & Hle2); auto.
    { intros y Hy. apply Hsub. now right. }
    exists st2, stamp2. split; [|split; auto].
    + simpl. rewrite Hr. exact Hf.
    + eapply lex_le_trans; eauto.
Qed.

(** ** One turn of the drain loop *)

Lemma drain_turn stamp st t u h :
  Inv g0 s stamp no_pending st ->
  heap_min st = (t, u) :: h ->
  exists out_v st' stamp',
    all_out_edges_of_node (graph st) u = Return out_v /\
    for_each (keys out_v) (relax [] u) (mkState (graph st) (prev_nodes st) h)
    = Return st' /\
    Inv g0 s stamp' no_pending st' /\
    lex_lt st' st.
Proof.
  intros HI Hh.
  destruct (inv_heap _ _ _ _ _ HI t u) as [du Hu].
  { rewrite Hh. now left. }
  exists (adjacency (graph_edges_out g0) u).
  set (st1 := mkState (graph st) (prev_nodes st) h).
  assert (HI1 : Inv g0 s stamp
                    (pending u (keys (adjacency (graph_edges_out g0) u))) st1).
  { destruct HI as [I1 I2 I3 I4 I5 I6 I7 I8]. constructor; auto.
    - intros t' v Hv. apply (I5 t' v). rewrite Hh. now right.
    - intros x y w dx Hxy Hx. destruct (I6 _ _ _ _ Hxy Hx) as [H|[H|H]]; auto.
      + rewrite Hh in H. simpl in H. destruct H as [<-|H]; auto.
        right. left. split; auto.
        unfold edge in Hxy. apply get_Some_In in Hxy.
        change y with (fst (y, w)). now apply in_map.
      + destruct H. }
  destruct (relax_all u du _ stamp st1 (fun y H => H) HI1 Hu)
    as (st' & stamp' & Hf & HI' & Hle).
  exists st', stamp'. split; [eapply out_edges_inv; eauto|].
  split; auto. split; auto.
  unfold lex_le in Hle. unfold lex_lt.
  unfold mu1, mu2 in *. subst st1. simpl in Hle. rewrite Hh. simpl. lia.
Qed.

(** ** The drain loop ends *)

Lemma drain_total :
  forall n1 n2 st stamp,
    mu1 st = n1 -> mu2 st = n2 ->
    Inv g0 s stamp no_pending st ->
    exists fuel st' stamp',
      (forall fuel', (fuel <= fuel')%nat -> drain fuel' [] st = Return st') /\
      Inv g0 s stamp' no_pending st' /\
      heap_min st' = [].
Proof.
  induction n1 as [n1 IH1] using lt_wf_ind.
  induction n2 as [n2 IH2] using lt_wf_ind.
  intros st stamp E1 E2 HI.
  destruct (heap_min st) as [|[t u] h] eqn:Hh.
  - exists 0%nat, st, stamp. split; [|split; auto].
    intros fuel' _. destruct fuel'; simpl; now rewrite Hh.
  - destruct (drain_turn stamp st t u h HI Hh)
      as (out_v & st1 & stamp1 & Hout & Hturn & HI1 & Hlt).
    assert (Hrec : exists fuel st' stamp',
              (forall fuel', (fuel <= fuel')%nat ->
                             drain fuel' [] st1 = Return st') /\
              Inv g0 s stamp' no_pending st' /\ heap_min st' = []).
    { destruct Hlt as [Hlt|[Heq Hlt]].
      - eapply (IH1 (mu1 st1)); eauto. lia.
      - eapply (IH2 (mu2 st1)); eauto; lia. }
    destruct Hrec as (fuel & st' & stamp' & Hd & HI' & Hh').
    exists (S fuel), st', stamp'. split; auto.
    intros fuel' Hf. destruct fuel' as [|fuel']; [lia|].
    cbn [drain]. rewrite Hh. cbn [heappop]. rewrite Hout. cbn [bind].
    rewrite Hturn. apply Hd. lia.
Qed.

(** ** When the heap is empty the tags are the distances *)

Lemma drained_lower_bound stamp st :
  Inv g0 s stamp no_pending st -> heap_min st = [] ->
  forall v d, walk g0 s v d -> exists dv, tg st v = Some (Fin dv) /\ dv <= d.
Proof.
  intros HI Hh v d Hw. induction Hw as [|u v d w _ IH He].
  - exists 0. split; [eapply inv_source; eauto | lia].
  - destruct IH as (du & Hu & Hle).
    destruct (inv_settled _ _ _ _ _ HI _ _ _ _ He Hu) as [H|[H|H]].
    + rewrite Hh in H. destruct H.
    + destruct H.
    + destruct H as (dv & Hv & Hle'). exists dv. split; auto. lia.
Qed.

Lemma drained_unreachable stamp st v :
  Inv g0 s stamp no_pending st -> vertex g0 v -> ~ reachable g0 s v ->
  tg st v = Some Inf.
Proof.
  intros HI Hv Hnr. destruct (tg_vertex _ _ _ _ HI Hv) as [[d|] Ht]; auto.
  exfalso. apply Hnr. exists d. eapply inv_walk; eauto.
Qed.

(** ** The reconstruction loop *)

Lemma reconstruct_total stamp st :
  Inv g0 s stamp no_pending st ->
  forall n m v d acc,
    Z.to_nat d = n -> stamp v = m -> tg st v = Some (Fin d) ->
    exists fuel li, forall fuel', (fuel <= fuel')%nat ->
      reconstruct fuel' st v acc = Return li.
Proof.
  intros HI.
  induction n as [n IH1] using lt_wf_ind.
  induction m as [m IH2] using lt_wf_ind.
  intros v d acc En Em Hv.
  assert (Hd : 0 <= d)
    by (eapply walk_nonneg; [exact Hok | eapply inv_walk; eauto]).
  destruct (Z.ltb 0 d) eqn:G.
  - apply Z.ltb_lt in G.
    assert (Hvs : v <> s).
    { intros ->. pose proof (inv_source _ _ _ _ _ HI) as H0.
      rewrite H0 in Hv. inversion Hv. lia. }
    destruct (get (prev_nodes st) v) as [p|] eqn:Hp.
    2:{ exfalso. eapply inv_has_prev; eauto. }
    destruct (inv_prev _ _ _ _ _ HI _ _ Hp) as (dp & dv & Hdp & Hdv & Hlt).
    rewrite Hv in Hdv. inversion Hdv; subst dv.
    assert (Hdp0 : 0 <= dp)
      by (eapply walk_nonneg; [exact Hok | eapply inv_walk; eauto]).
    assert (Hrec : exists fuel li, forall fuel', (fuel <= fuel')%nat ->
              reconstruct fuel' st p (acc ++ [v]) = Return li).
    { destruct Hlt as [Hlt|[Heq Hlt]].
      - eapply (IH1 (Z.to_nat dp)); eauto. lia.
      - eapply (IH2 (stamp p)); eauto; try lia. subst dp. auto. }
    destruct Hrec as (fuel & li & Hrec). exists (S fuel), li.
    intros fuel' Hf. destruct fuel' as [|fuel']; [lia|].
    cbn [reconstruct]. unfold get_all_v. rewrite tag_of_tags.
    fold (tg st v). rewrite Hv. cbn [bind dist_gtb].
    apply Z.ltb_lt in G. rewrite G. unfold subscript. rewrite Hp. cbn [bind].
    apply Hrec. lia.
  - exists 0%nat, (acc ++ [v]). intros fuel' _.
    destruct fuel'; cbn [reconstruct]; unfold get_all_v; rewrite tag_of_tags;
      fold (tg st v); rewrite Hv; cbn [bind dist_gtb]; now rewrite G.
Qed.

Lemma reconstruct_source stamp st fuel :
  Inv g0 s stamp no_pending st -> reconstruct fuel st s [] = Return [s].
Proof.
  intros HI. pose proof (inv_source _ _ _ _ _ HI) as H0.
  destruct fuel; cbn [reconstruct]; unfold get_all_v; rewrite tag_of_tags;
    fold (tg st s); rewrite H0; reflexivity.
Qed.

Lemma reconstruct_unreachable stamp st v fuel :
  Inv g0 s stamp no_pending st -> tg st v = Some Inf ->
  reconstruct (S fuel) st v [] = Raise KeyError.
Proof.
  intros HI Hv. cbn [reconstruct]. unfold get_all_v. rewrite tag_of_tags.
  fold (tg st v). rewrite Hv. cbn [bind dist_gtb]. unfold subscript.
  destruct (get (prev_nodes st) v) as [p|] eqn:Hp; auto.
  destruct (inv_prev _ _ _ _ _ HI _ _ Hp) as (dp & dv & _ & Hdv & _).
  rewrite Hv in Hdv. discriminate.
Qed.

(** ** The state the drain loop starts from *)

Lemma init_tags l :
  forall g,
    (forall x, In x l -> contains (graph_v g) x = true) ->
    exists g',
      for_each l (fun g x => set_node_tag g x Inf) g = Return g' /\
      graph_edges_out g' = graph_edges_out g /\
      (forall x, contains (graph_v g') x = contains (graph_v g) x) /\
      (forall x, tags g' x = if mem x l then Some Inf else tags g x).
Proof.
  induction l as [|y l IH]; intros g Hin.
  - exists g. simpl. auto.
  - destruct (contains_tags g y) as [t0 Ht0]; [apply Hin; now left|].
    destruct (set_node_tag_spec g y Inf t0 Ht0)
      as (g1 & Hset & He1 & _ & Ht1 & Hc1 & _).
    destruct (IH g1) as (g' & Hf & He' & Hc' & Ht').
    { intros x Hx. rewrite Hc1. apply Hin. now right. }
    exists g'. split; [|split; [|split]].
    + simpl. rewrite Hset. exact Hf.
    + congruence.
    + intros x. now rewrite Hc', Hc1.
    + intros x. rewrite Ht', Ht1. unfold mem. simpl.
      destruct (existsb (Z.eqb x) l); [now rewrite orb_true_r|].
      rewrite orb_false_r. now destruct (Z.eqb x y).
Qed.

Lemma sp_init_inv :
  vertex g0 s ->
  exists st0, sp_init g0 s = Return st0 /\
              Inv g0 s (fun _ => 0%nat) no_pending st0.
Proof.
  intros Hs. unfold sp_init.
  destruct (init_tags (keys (graph_v g0)) g0) as (g1 & Hf & He1 & Hc1 & Ht1).
  { intros x Hx. now apply contains_keys. }
  rewrite Hf. cbn [bind].
  assert (Hall : forall x, tags g1 x = Some Inf \/ tags g1 x = None).
  { intros x. rewrite Ht1. destruct (mem x (keys (graph_v g0))) eqn:E; auto.
    right. unfold tags.
    destruct (get (graph_v g0) x) eqn:Eg; auto.
    assert (In x (keys (graph_v g0))).
    { apply contains_keys. unfold contains. now rewrite Eg. }
    apply mem_In in H. congruence. }
  destruct (contains_tags g1 s) as [t0 Ht0]; [now rewrite Hc1|].
  destruct (set_node_tag_spec g1 s (Fin 0) t0 Ht0)
    as (g2 & Hset & He2 & _ & Ht2 & Hc2 & _).
  rewrite Hset. cbn [bind]. rewrite tag_of_tags, Ht2, Z.eqb_refl. cbn [bind].
  eexists. split; [reflexivity|].
  assert (Hfin : forall v d, tags g2 v = Some (Fin d) -> v = s /\ d = 0).
  { intros v d. rewrite Ht2. destruct (Z.eqb v s) eqn:E.
    - apply Z.eqb_eq in E. intros H. inversion H. auto.
    - destruct (Hall v) as [H|H]; rewrite H; discriminate. }
  constructor; unfold tg; simpl.
  - congruence.
  - intros v. now rewrite Hc2, Hc1.
  - now rewrite Ht2, Z.eqb_refl.
  - intros v d H. apply Hfin in H. destruct H as [-> ->]. now constructor.
  - intros t v [H|[]]. inversion H; subst. exists 0.
    now rewrite Ht2, Z.eqb_refl.
  - intros u v w du _ H. apply Hfin in H. destruct H as [-> ->]. auto.
  - discriminate.
  - intros v d H Hne. apply Hfin in H. tauto.
Qed.

(** ** The whole call, for two vertices of the graph *)

Lemma shortest_path_unfold fuel t st0 :
  vertex g0 s -> vertex g0 t -> sp_init g0 s = Return st0 ->
  shortest_path fuel g0 s t =
  (st <- drain fuel [] st0 ;;
   li_return <- reconstruct fuel st t [] ;;
   d <- tag_of (get_all_v (graph st)) t ;;
   Return (Some (d, rev li_return))).
Proof.
  unfold vertex, shortest_path, get_all_v. intros -> -> ->. reflexivity.
Qed.

(** Enough fuel lets the call end: with the minimum distance and some path
    when the target can be reached, with [KeyError] when it cannot. *)
Lemma shortest_path_outcome t :
  vertex g0 s -> vertex g0 t ->
  exists fuel,
    (exists d li,
        (forall fuel', (fuel <= fuel')%nat ->
                       shortest_path fuel' g0 s t = Return (Some (Fin d, li))) /\
        walk g0 s t d /\
        (forall d', walk g0 s t d' -> d <= d') /\
        (t = s -> li = [s])) \/
    ((forall fuel', (fuel <= fuel')%nat ->
                    shortest_path fuel' g0 s t = Raise KeyError) /\
     ~ reachable g0 s t).
Proof.
  intros Hs Ht.
  destruct (sp_init_inv Hs) as (st0 & Hinit & HI0).
  destruct (drain_total _ _ st0 _ eq_refl eq_refl HI0)
    as (f1 & st & stamp & Hdrain & HI & Hh).
  destruct (tg_vertex _ _ _ _ HI Ht) as [[d|] Htag].
  - destruct (reconstruct_total stamp st HI _ _ t d [] eq_refl eq_refl Htag)
      as (f2 & li & Hrec).
    exists (Nat.max f1 f2). left. exists d, (rev li).
    split; [|split; [|split]].
    + intros fuel' Hf. rewrite (shortest_path_unfold fuel' t st0 Hs Ht Hinit).
      rewrite Hdrain by lia. cbn [bind]. rewrite Hrec by lia. cbn [bind].
      unfold get_all_v. rewrite tag_of_tags. fold (tg st t). rewrite Htag.
      reflexivity.
    + eapply inv_walk; eauto.
    + intros d' Hw.
      destruct (drained_lower_bound stamp st HI Hh t d' Hw) as (dv & Hdv & Hle).
      rewrite Htag in Hdv. inversion Hdv. lia.
    + intros ->. specialize (Hrec f2 (Nat.le_refl _)).
      rewrite (reconstruct_source stamp st f2 HI) in Hrec.
      inversion Hrec. reflexivity.
  - exists (Nat.max f1 1). right. split.
    + intros fuel' Hf. rewrite (shortest_path_unfold fuel' t st0 Hs Ht Hinit).
      rewrite Hdrain by lia. cbn [bind].
      destruct fuel' as [|fuel']; [lia|].
      now rewrite (reconstruct_unreachable stamp st t fuel' HI Htag).
    + intros [d Hw].
      destruct (drained_lower_bound stamp st HI Hh t d Hw) as (dv & Hdv & _).
      rewrite Htag in Hdv. discriminate.
Qed.

End Drain.

(** * The claims about [shortest_path] *)

(** A push onto the heap comes with a strictly smaller tag: an iteration of
    the inner loop either leaves the state alone or lowers the tag of
    [node_id] and pushes the new tag with it. *)
Lemma relax_pushes_on_decrease v st node_id st' :
  relax [] v st node_id = Return st' ->
  st' = st \/
  exists told tnew,
    tag_of (graph_v (graph st)) node_id = Return told /\
    tag_of (graph_v (graph st')) node_id = Return tnew /\
    dist_gtb told tnew = true /\
    heap_min st' = heappush (heap_min st) (tnew, node_id).
Proof.
  unfold relax. simpl mem. cbn [negb].
  destruct (all_out_edges_of_node (graph st) v) as [out_v| |]; cbn [bind];
    try discriminate.
  destruct (mem node_id (keys out_v)).
  2:{ intros H. inversion H. auto. }
  destruct (tag_of (graph_v (graph st)) v) as [tv| |]; cbn [bind];
    try discriminate.
  destruct (subscript out_v node_id) as [w| |]; cbn [bind]; try discriminate.
  unfold get_all_v. rewrite tag_of_tags.
  destruct (tags (graph st) node_id) as [tn|] eqn:Htn; cbn [bind];
    try discriminate.
  destruct (dist_gtb tn (dist_add tv w)) eqn:G.
  2:{ intros H. inversion H. auto. }
  destruct (set_node_tag_spec (graph st) node_id (dist_add tv w) tn Htn)
    as (g' & Hset & _ & _ & Ht & _).
  rewrite Hset. cbn [bind]. intros H. inversion H; subst st'. clear H.
  right. exists tn, (dist_add tv w). simpl.
  rewrite tag_of_tags, Ht, Z.eqb_refl. auto.
Qed.



(** C2, as the code has it: for two vertices with no edge between them the
    lookup [prev_nodes[node_key]] raises [KeyError]; no pair is returned. *)
Theorem shortest_path_unreachable_raises :
  forall fuel, shortest_path (S (S fuel)) two_isolated 0 1 = Raise KeyError.
Proof. intros fuel. reflexivity. Qed.

(** Whenever the target cannot be reached the call ends in [KeyError]. *)
Lemma shortest_path_unreachable_general g s t :
  edges_ok g = true -> vertex g s -> vertex g t -> ~ reachable g s t ->
  exists fuel, forall fuel', (fuel <= fuel')%nat ->
    shortest_path fuel' g s t = Raise KeyError.
Proof.
  intros Hok Hs Ht Hn.
  destruct (shortest_path_outcome g s Hok t Hs Ht) as [fuel [H|H]].
  - destruct H as (d & _ & _ & Hw & _). exfalso. apply Hn. now exists d.
  - exists fuel. tauto.
Qed.

(** C5, as the code has it: the reconstruction loop stops on a tag that is
    not positive, so across an edge of weight zero the returned path is the
    target alone and does not begin at the source. *)
Theorem shortest_path_zero_weight_path :
  forall fuel, shortest_path (S (S (S fuel))) zero_edge_graph 0 1
               = Return (Some (Fin 0, [1])).
Proof. intros fuel. reflexivity. Qed.

(** C6: for a vertex [v] of a graph with non-negative weights, enough fuel
    makes [shortest_path(v, v)] return [(0, [v])]. *)
Theorem shortest_path_self g v :
  edges_ok g = true -> vertex g v ->
  exists fuel, forall fuel', (fuel <= fuel')%nat ->
    shortest_path fuel' g v v = Return (Some (Fin 0, [v])).
Proof.
  intros Hok Hv.
  destruct (shortest_path_outcome g v Hok v Hv Hv) as [fuel [H|H]].
  - destruct H as (d & li & Hrun & Hw & Hmin & Hli).
    assert (d = 0).
    { pose proof (walk_nonneg _ _ _ _ Hok Hw).
      pose proof (Hmin 0 (walk_here g v Hv)). lia. }
    subst d. rewrite (Hli eq_refl) in Hrun. eauto.
  - destruct H as [_ Hn]. exfalso. apply Hn. exists 0. now constructor.
Qed.

Lemma shortest_path_self_witness :
  edges_ok docstring_graph = true /\ vertex docstring_graph 2 /\
  exists fuel, forall fuel', (fuel <= fuel')%nat ->
    shortest_path fuel' docstring_graph 2 2 = Return (Some (Fin 0, [2])).
Proof.
  split; [reflexivity|]. split; [reflexivity|].
  apply (shortest_path_self docstring_graph 2); reflexivity.
Defined.

(** C9: when the source or the target is not a vertex of the graph,
    [shortest_path] returns [None], whatever the fuel; nothing is raised. *)
Theorem shortest_path_absent fuel g id1 id2 :
  contains (get_all_v g) id1 = false \/ contains (get_all_v g) id2 = false ->
  shortest_path fuel g id1 id2 = Return None.
Proof.
  unfold shortest_path. intros [H|H]; rewrite H; simpl; auto.
  now rewrite orb_true_r.
Qed.

Lemma shortest_path_absent_witness :
  (contains (get_all_v docstring_graph) 0 = false \/
   contains (get_all_v docstring_graph) 7 = false) /\
  shortest_path 0 docstring_graph 0 7 = Return None.
Proof.
  split; [right; reflexivity|].
  apply (shortest_path_absent 0 docstring_graph 0 7). right. reflexivity.
Defined.

(** C10: with non-negative weights and two vertices of the graph, enough
    fuel lets [shortest_path] end (in a value or an exception) and more
    fuel does not change the outcome; and a vertex is pushed onto the heap
    only together with a strict decrease of its tag, the [visited] list
    staying empty. *)
Theorem shortest_path_terminates g s t :
  edges_ok g = true -> vertex g s -> vertex g t ->
  (exists fuel r,
      r <> OutOfFuel /\
      forall fuel', (fuel <= fuel')%nat -> shortest_path fuel' g s t = r) /\
  (forall v st node_id st',
      relax [] v st node_id = Return st' ->
      st' = st \/
      exists told tnew,
        tag_of (graph_v (graph st)) node_id = Return told /\
        tag_of (graph_v (graph st')) node_id = Return tnew /\
        dist_gtb told tnew = true /\
        heap_min st' = heappush (heap_min st) (tnew, node_id)).
Proof.
  intros Hok Hs Ht. split.
  - destruct (shortest_path_outcome g s Hok t Hs Ht) as [fuel [H|H]].
    + destruct H as (d & li & Hrun & _).
      exists fuel, (Return (Some (Fin d, li))). split; [discriminate | auto].
    + destruct H as [Hrun _].
      exists fuel, (Raise KeyError). split; [discriminate | auto].
  - apply relax_pushes_on_decrease.
Qed.

Lemma shortest_path_terminates_witness :
  edges_ok docstring_graph = true /\
  vertex docstring_graph 2 /\ vertex docstring_graph 0 /\
  exists fuel r,
    r <> OutOfFuel /\
    forall fuel', (fuel <= fuel')%nat ->
                  shortest_path fuel' docstring_graph 2 0 = r.
Proof.
  split; [reflexivity|]. split; [reflexivity|]. split; [reflexivity|].
  apply (proj1 (shortest_path_terminates docstring_graph 2 0
                  eq_refl eq_refl eq_refl)).
Defined.

(** * The claims about connected components *)

(** C4, as the code has it: for a graph of one vertex and no edge both
    searches return the empty list (the queried vertex is removed), and
    [connected_component] then applies [&] to two lists, a [TypeError]. *)
Theorem connected_component_isolated :
  forall fuel,
    bfs_in (S (S fuel)) one_vertex 0 = Return [] /\
    bfs_out (S (S fuel)) one_vertex 0 = Return [] /\
    connected_component (S (S fuel)) one_vertex 0 = Raise TypeError.
Proof. intros fuel. repeat split. Qed.

(** C3, as the code has it: on the same graph [connected_components] ends
    in the [TypeError] of its first [connected_component] call and returns
    no list of cells. *)
Theorem connected_components_one_vertex :
  forall fuel, connected_components (S (S fuel)) one_vertex = Raise TypeError.
Proof. intros fuel. reflexivity. Qed.

(** On any graph, a call of [connected_component] that ends does not
    return a list. *)
Lemma connected_component_never_returns fuel g v l :
  connected_component fuel g v <> Return l.
Proof.
  unfold connected_component, list_and.
  destruct (bfs_in fuel g v); cbn [bind]; try discriminate.
  destruct (bfs_out fuel g v); cbn [bind]; discriminate.
Qed.

(** * The claims about persistence *)

(** C7, as the code has it: when the file cannot be opened for reading,
    [finally: file.close()] reads the unbound local [file] and the call
    raises [UnboundLocalError] instead of returning [False]; and
    [save_to_json] opens its file outside the [try], so the [OSError] of a
    file that cannot be opened for writing reaches the caller. *)
Theorem persistence_raises :
  (forall g name,
      load_from_json g no_files name = (Raise UnboundLocalError, g)) /\
  (forall g name,
      save_to_json g locked_files name = (Raise OSError, locked_files)).
Proof. split; intros g name; reflexivity. Qed.

(** ** Saving *)

Lemma nodupb_NoDup l : nodupb l = true -> NoDup l.
Proof.
  induction l as [|x l IH]; simpl; intros H; constructor.
  - apply andb_true_iff in H. destruct H as [H _].
    intros Hin. apply mem_In in Hin. rewrite Hin in H. discriminate.
  - apply andb_true_iff in H. tauto.
Qed.

Lemma save_edges_loop g l :
  forall acc,
    (forall src, In src l -> contains (graph_v g) src = true) ->
    for_each l (save_edges_of g) acc
    = Return (acc ++ map json_of_triple
                (flat_map (fun src => map (fun dw => (src, dw))
                                          (adjacency (graph_edges_out g) src)) l)).
Proof.
  induction l as [|src l IH]; intros acc Hin; simpl.
  - now rewrite app_nil_r.
  - unfold save_edges_of at 1. unfold all_out_edges_of_node.
    rewrite Hin by now left. cbn [bind].
    rewrite IH by (intros x Hx; apply Hin; now right).
    rewrite map_app, map_map, app_assoc. reflexivity.
Qed.

Lemma well_formed_sources g src :
  well_formed g = true -> In src (keys (graph_edges_out g)) ->
  contains (graph_v g) src = true.
Proof.
  unfold well_formed. intros H Hin.
  apply andb_true_iff in H. destruct H as [_ H].
  rewrite forallb_forall in H.
  apply in_map_iff in Hin. destruct Hin as ([k d] & <- & Hin).
  specialize (H _ Hin). simpl in H.
  apply andb_true_iff in H. destruct H as [H _].
  apply andb_true_iff in H. tauto.
Qed.

Lemma save_doc_spec g :
  well_formed g = true ->
  save_doc g = Return (document (map json_of_node (values (graph_v g)))
                                (map json_of_triple (triples g))).
Proof.
  intros Hwf. unfold save_doc, get_all_v.
  rewrite save_edges_loop by (intros src; apply well_formed_sources; auto).
  reflexivity.
Qed.

(** ** Loading what was saved *)

Lemma load_node_saved g n :
  load_node g (json_of_node n) = Return (snd (add_node g (key n) (pos n))).
Proof.
  unfold json_of_node. destruct (pos n) as [[[x y] z]|]; reflexivity.
Qed.

Lemma load_edge_saved g t :
  load_edge g (json_of_triple t)
  = Return (snd (add_edge g (fst t) (fst (snd t)) (snd (snd t)))).
Proof. destruct t as [src [dest w]]. reflexivity. Qed.

Lemma load_nodes_saved ns :
  forall g, mutate_each load_node (map json_of_node ns) g
            = (Return tt, add_nodes ns g).
Proof.
  induction ns as [|n ns IH]; intros g; [reflexivity|].
  cbn [map mutate_each]. rewrite load_node_saved. apply IH.
Qed.

Lemma load_edges_saved ts :
  forall g, mutate_each load_edge (map json_of_triple ts) g
            = (Return tt, add_edges ts g).
Proof.
  induction ts as [|t ts IH]; intros g; [reflexivity|].
  cbn [map mutate_each]. rewrite load_edge_saved. apply IH.
Qed.

Lemma add_node_spec g k p :
  graph_edges_out (snd (add_node g k p)) = graph_edges_out g /\
  forall v,
    get (graph_v (snd (add_node g k p))) v =
    match get (graph_v g) v with
    | Some n => Some n
    | None => if Z.eqb v k then Some (mkNode k p (Fin 0)) else None
    end.
Proof.
  unfold add_node, contains.
  destruct (get (graph_v g) k) as [n0|] eqn:E; cbn [snd graph_v graph_edges_out];
    split; auto; intros v.
  - destruct (get (graph_v g) v) eqn:Ev; auto.
    destruct (Z.eqb v k) eqn:Ek; auto.
    apply Z.eqb_eq in Ek. congruence.
  - rewrite get_set. destruct (Z.eqb v k) eqn:Ek.
    + apply Z.eqb_eq in Ek. subst v. now rewrite E.
    + now destruct (get (graph_v g) v).
Qed.

Lemma add_nodes_cons n ns g :
  add_nodes (n :: ns) g = add_nodes ns (snd (add_node g (key n) (pos n))).
Proof. reflexivity. Qed.

Lemma add_nodes_spec ns :
  forall g,
    graph_edges_out (add_nodes ns g) = graph_edges_out g /\
    forall v,
      get (graph_v (add_nodes ns g)) v =
      match get (graph_v g) v with
      | Some n => Some n
      | None => option_map (fun n => mkNode (key n) (pos n) (Fin 0))
                           (find (fun n => Z.eqb (key n) v) ns)
      end.
Proof.
  induction ns as [|n ns IH]; intros g.
  - split; auto. intros v. simpl. now destruct (get (graph_v g) v).
  - rewrite add_nodes_cons.
    destruct (IH (snd (add_node g (key n) (pos n)))) as [He Hg].
    destruct (add_node_spec g (key n) (pos n)) as [He1 Hg1].
    split; [congruence|].
    intros v. rewrite Hg, Hg1. cbn [find].
    rewrite (Z.eqb_sym (key n) v).
    destruct (get (graph_v g) v); auto.
    now destruct (Z.eqb v (key n)).
Qed.

Lemma well_formed_vertices g :
  well_formed g = true ->
  NoDup (keys (graph_v g)) /\
  forall k n, In (k, n) (graph_v g) -> key n = k.
Proof.
  unfold well_formed. intros H.
  apply andb_true_iff in H. destruct H as [H _].
  apply andb_true_iff in H. destruct H as [H _].
  apply andb_true_iff in H. destruct H as [H1 H2].
  split; [now apply nodupb_NoDup|].
  intros k n Hin. rewrite forallb_forall in H2.
  specialize (H2 _ Hin). now apply Z.eqb_eq in H2.
Qed.

(** Adding the saved vertices in any order to the empty graph gives every
    vertex of [g] with its position, and no other vertex. *)
Lemma loaded_positions g ns v :
  well_formed g = true ->
  Permutation (values (graph_v g)) ns ->
  position (add_nodes ns empty_graph) v = position g v.
Proof.
  intros Hwf Hperm. destruct (well_formed_vertices g Hwf) as [Hnd Hkey].
  unfold position. rewrite (proj2 (add_nodes_spec ns empty_graph)). simpl.
  assert (Hback : forall n', In n' ns -> In (key n', n') (graph_v g)).
  { intros n' Hin. apply (Permutation_in _ (Permutation_sym Hperm)) in Hin.
    unfold values in Hin. apply in_map_iff in Hin.
    destruct Hin as ([k n0] & E & Hin). simpl in E. subst n0.
    now rewrite (Hkey _ _ Hin). }
  destruct (find (fun n => Z.eqb (key n) v) ns) as [n'|] eqn:Ef.
  - apply find_some in Ef. destruct Ef as [Hin Ek].
    apply Z.eqb_eq in Ek. apply Hback in Hin. rewrite Ek in Hin.
    now rewrite (get_In_NoDup _ _ _ Hnd Hin).
  - destruct (get (graph_v g) v) as [n|] eqn:Eg; auto.
    exfalso. apply get_Some_In in Eg.
    assert (Hin : In n ns).
    { apply (Permutation_in _ Hperm). unfold values.
      change n with (snd (v, n)). now apply in_map. }
    pose proof (find_none _ _ Ef _ Hin) as Hn. simpl in Hn.
    rewrite (Hkey _ _ Eg), Z.eqb_refl in Hn. discriminate.
Qed.

Lemma position_vertex g v : vertex g v <-> position g v <> None.
Proof.
  unfold vertex, contains, position.
  destruct (get (graph_v g) v); simpl; split; congruence.
Qed.

(** ** Adding edges *)

Lemma adjacency_set m s s' (x : dict Z) :
  adjacency (set m s x) s' = if Z.eqb s' s then x else adjacency m s'.
Proof. unfold adjacency. rewrite get_set. now destruct (Z.eqb s' s). Qed.

Lemma add_edge_spec g s d w :
  vertex g s -> vertex g d -> 0 <= w -> s <> d ->
  graph_v (snd (add_edge g s d w)) = graph_v g /\
  forall s' d' w',
    edge (snd (add_edge g s d w)) s' d' w' <->
    (if Z.eqb s' s && Z.eqb d' d then w' = w else edge g s' d' w').
Proof.
  unfold vertex. intros Hs Hd Hw Hne. unfold add_edge.
  rewrite Hs, Hd. simpl negb. simpl orb.
  replace (Z.ltb w 0) with false by (symmetry; apply Z.ltb_ge; lia).
  replace (Z.eqb s d) with false by (symmetry; now apply Z.eqb_neq).
  simpl. split; auto.
  intros s' d' w'. unfold edge. simpl. rewrite adjacency_set.
  destruct (Z.eqb s' s) eqn:Es; simpl.
  - apply Z.eqb_eq in Es. subst s'. rewrite get_set.
    destruct (Z.eqb d' d); [|tauto]. split; congruence.
  - tauto.
Qed.

Lemma triple_key_dec (ts : list (Z * (Z * Z))) s d :
  (exists w, In (s, (d, w)) ts) \/ (forall w, ~ In (s, (d, w)) ts).
Proof.
  induction ts as [|[s0 [d0 w0]] ts IH].
  - right. intros w [].
  - destruct IH as [[w H]|H].
    + left. exists w. now right.
    + destruct (Z.eq_dec s s0) as [->|Hs]; [destruct (Z.eq_dec d d0) as [->|Hd]|].
      * left. exists w0. now left.
      * right. intros w [E|Hin]; [congruence | now apply (H w)].
      * right. intros w [E|Hin]; [congruence | now apply (H w)].
Qed.

Lemma add_edges_spec ts :
  forall g,
    valid_triples ts g -> functional ts ->
    graph_v (add_edges ts g) = graph_v g /\
    forall s d w,
      edge (add_edges ts g) s d w <->
      In (s, (d, w)) ts \/ ((forall w', ~ In (s, (d, w')) ts) /\ edge g s d w).
Proof.
  induction ts as [|[s0 [d0 w0]] ts IH]; intros g Hval Hfun.
  - simpl. split; auto. intros s d w. split; [|tauto].
    intros H. right. split; auto.
  - destruct (Hval s0 d0 w0 (or_introl eq_refl)) as (Hs0 & Hd0 & Hw0 & Hne).
    destruct (add_edge_spec g s0 d0 w0 Hs0 Hd0 Hw0 Hne) as [Hv1 He1].
    change (add_edges ((s0, (d0, w0)) :: ts) g)
      with (add_edges ts (snd (add_edge g s0 d0 w0))).
    set (g1 := snd (add_edge g s0 d0 w0)) in *.
    destruct (IH g1) as [Hv He].
    { intros s d w Hin. unfold vertex. rewrite Hv1. apply Hval. now right. }
    { intros s d w w' H1 H2. eapply Hfun; right; eauto. }
    split; [congruence|].
    intros s d w. rewrite He, He1.
    destruct (Z.eqb s s0 && Z.eqb d d0) eqn:E.
    + apply andb_true_iff in E. destruct E as [Es Ed].
      apply Z.eqb_eq in Es. apply Z.eqb_eq in Ed. subst s d.
      split.
      * intros [H|[H ->]]; left; [now right | now left].
      * intros [[H|H]|[H _]].
        -- inversion H; subst w.
           destruct (triple_key_dec ts s0 d0) as [[w' Hw']|Hno]; auto.
           left. rewrite (Hfun s0 d0 w0 w'); auto; [now left | now right].
        -- now left.
        -- exfalso. apply (H w0). now left.
    + assert (Hneq : forall w', (s0, (d0, w0)) <> (s, (d, w'))).
      { intros w' H. inversion H; subst. now rewrite !Z.eqb_refl in E. }
      split.
      * intros [H|[H H']]; [left; now right|].
        right. split; auto. intros w' [H1|H1]; [now apply (Hneq w') | now apply (H w')].
      * intros [[H|H]|[H H']]; [now apply Hneq in H | now left |].
        right. split; auto. intros w' H1. apply (H w'). now right.
Qed.

(** ** The stored edges of a well-formed graph *)

Lemma well_formed_entry g s dct :
  well_formed g = true -> In (s, dct) (graph_edges_out g) ->
  NoDup (keys dct) /\ vertex g s /\
  forall d w, In (d, w) dct -> vertex g d /\ 0 <= w /\ s <> d.
Proof.
  unfold well_formed. intros H Hin.
  apply andb_true_iff in H. destruct H as [_ H].
  rewrite forallb_forall in H. specialize (H _ Hin). simpl in H.
  apply andb_true_iff in H. destruct H as [H H3].
  apply andb_true_iff in H. destruct H as [H1 H2].
  split; [now apply nodupb_NoDup|]. split; [exact H1|].
  intros d w Hd. rewrite forallb_forall in H3. specialize (H3 _ Hd).
  simpl in H3.
  apply andb_true_iff in H3. destruct H3 as [H3 H5].
  apply andb_true_iff in H3. destruct H3 as [H3 H4].
  split; [exact H3|]. split; [now apply Z.leb_le|].
  apply negb_true_iff in H5. now apply Z.eqb_neq.
Qed.

Lemma adjacency_cases (m : dict (dict Z)) s :
  (exists dct, get m s = Some dct /\ adjacency m s = dct) \/
  (get m s = None /\ adjacency m s = []).
Proof. unfold adjacency. destruct (get m s); eauto. Qed.

Lemma triples_edge g s d w :
  well_formed g = true -> (In (s, (d, w)) (triples g) <-> edge g s d w).
Proof.
  intros Hwf. unfold triples, edge. rewrite in_flat_map. split.
  - intros (src & Hsrc & Hin). apply in_map_iff in Hin.
    destruct Hin as ([d' w'] & E & Hin). inversion E; subst src d' w'.
    destruct (adjacency_cases (graph_edges_out g) s) as [(dct & Hg & Ha)|[_ Ha]];
      rewrite Ha in *; [|destruct Hin].
    apply get_Some_In in Hg.
    destruct (well_formed_entry g s dct Hwf Hg) as [Hnd _].
    now apply get_In_NoDup.
  - intros Hget.
    destruct (adjacency_cases (graph_edges_out g) s) as [(dct & Hg & Ha)|[_ Ha]];
      rewrite Ha in *; [|discriminate].
    exists s. split.
    + apply get_Some_In in Hg. change s with (fst (s, dct)). now apply in_map.
    + rewrite Ha. apply (in_map (fun dw : Z * Z => (s, dw)) dct (d, w)).
      now apply get_Some_In.
Qed.

Lemma triples_valid g s d w :
  well_formed g = true -> In (s, (d, w)) (triples g) ->
  vertex g s /\ vertex g d /\ 0 <= w /\ s <> d.
Proof.
  intros Hwf Hin. apply (triples_edge g s d w Hwf) in Hin. unfold edge in Hin.
  destruct (adjacency_cases (graph_edges_out g) s) as [(dct & Hg & Ha)|[_ Ha]];
    rewrite Ha in *; [|discriminate].
  apply get_Some_In in Hg. apply get_Some_In in Hin.
  destruct (well_formed_entry g s dct Hwf Hg) as (_ & Hs & Hd).
  destruct (Hd d w Hin) as (H1 & H2 & H3). auto.
Qed.

(** Loading the saved vertices and edges, in any order, into the empty
    graph gives the graph that was saved. *)
Lemma loaded_graph g ns ts :
  well_formed g = true ->
  Permutation (values (graph_v g)) ns ->
  Permutation (triples g) ts ->
  same_graph g (add_edges ts (add_nodes ns empty_graph)).
Proof.
  intros Hwf Hns Hts.
  set (g1 := add_nodes ns empty_graph).
  assert (Hpos : forall v, position g1 v = position g v)
    by (intros v; now apply loaded_positions).
  assert (Hver : forall v, vertex g1 v <-> vertex g v)
    by (intros v; now rewrite !position_vertex, Hpos).
  assert (Hval : valid_triples ts g1).
  { intros s d w Hin. apply (Permutation_in _ (Permutation_sym Hts)) in Hin.
    destruct (triples_valid g s d w Hwf Hin) as (H1 & H2 & H3 & H4).
    rewrite !Hver. auto. }
  assert (Hfun : functional ts).
  { intros s d w w' H1 H2.
    apply (Permutation_in _ (Permutation_sym Hts)) in H1, H2.
    apply (triples_edge g s d w Hwf) in H1.
    apply (triples_edge g s d w' Hwf) in H2.
    unfold edge in H1, H2. congruence. }
  destruct (add_edges_spec ts g1 Hval Hfun) as [Hv He].
  assert (Hno : forall s d w, ~ edge g1 s d w).
  { intros s d w. unfold edge, g1.
    rewrite (proj1 (add_nodes_spec ns empty_graph)). discriminate. }
  constructor.
  - intros v. unfold vertex. rewrite Hv. apply Hver.
  - intros v. unfold position. rewrite Hv. apply Hpos.
  - intros s d w. rewrite He, <- (triples_edge g s d w Hwf). split.
    + intros [H|[_ H]]; [|now apply Hno in H].
      now apply (Permutation_in _ (Permutation_sym Hts)).
    + intros H. left. now apply (Permutation_in _ Hts).
Qed.

(** * The round trip through a file *)

(** C8: saving a well-formed graph to a file that can be written succeeds
    and leaves a document of vertex entries and edge entries; loading that
    document, or any document with the same entries in another order, into
    an empty graph succeeds and gives the same vertex ids, the same
    positions and the same [(src, dest, weight)] triples. *)
Theorem save_load_round_trip g w name :
  well_formed g = true -> writable w name = true ->
  exists nodes edges w',
    save_to_json g w name = (Return true, w') /\
    w' name = Content (Some (document nodes edges)) /\
    forall nodes' edges' w'',
      Permutation nodes nodes' -> Permutation edges edges' ->
      w'' name = Content (Some (document nodes' edges')) ->
      exists g',
        load_from_json empty_graph w'' name = (Return true, g') /\
        same_graph g g'.
Proof.
  intros Hwf Hw.
  exists (map json_of_node (values (graph_v g))),
         (map json_of_triple (triples g)),
         (write_file (write_file w name None) name
            (Some (document (map json_of_node (values (graph_v g)))
                            (map json_of_triple (triples g))))).
  split; [|split].
  - unfold save_to_json, open_write. unfold writable in Hw.
    destruct (w name); try discriminate; now rewrite save_doc_spec.
  - unfold write_file. now rewrite String.eqb_refl.
  - intros nodes' edges' w'' Hn He Hfile.
    apply Permutation_sym, Permutation_map_inv in Hn, He.
    destruct Hn as (ns & -> & Hns). destruct He as (ts & -> & Hts).
    exists (add_edges ts (add_nodes ns empty_graph)). split.
    + unfold load_from_json, open_read. rewrite Hfile.
      cbn [json_load]. unfold load_body, document.
      cbn [json_subscript field String.eqb Ascii.eqb Bool.eqb bind json_iter].
      rewrite load_nodes_saved.
      cbn [json_subscript field String.eqb Ascii.eqb Bool.eqb bind json_iter].
      rewrite load_edges_saved. reflexivity.
    + now apply loaded_graph.
Qed.

Lemma save_load_round_trip_witness :
  well_formed placed_graph = true /\
  writable no_files "graph.json" = true /\
  exists nodes edges w',
    save_to_json placed_graph no_files "graph.json" = (Return true, w') /\
    w' "graph.json"%string = Content (Some (document nodes edges)) /\
    forall nodes' edges' w'',
      Permutation nodes nodes' -> Permutation edges edges' ->
      w'' "graph.json"%string = Content (Some (document nodes' edges')) ->
      exists g',
        load_from_json empty_graph w'' "graph.json" = (Return true, g') /\
        same_graph placed_graph g'.
Proof.
  split; [reflexivity|]. split; [reflexivity|].
  apply (save_load_round_trip placed_graph no_files "graph.json");
    reflexivity.
Defined.

(** * Beyond the claims: the two searches *)

Section DictNoDup.
Context {V : Type}.

Lemma keys_set_present (d : dict V) k v0 v :
  get d k = Some v0 -> keys (set d k v) = keys d.
Proof.
  intros H. destruct (set_split d k v0 v H) as (d1 & d2 & H1 & H2).
  rewrite H2, H1. unfold keys. now rewrite !map_app.
Qed.

Lemma keys_set_absent (d : dict V) k v :
  get d k = None -> keys (set d k v) = keys d ++ [k].
Proof.
  induction d as [|[k' v'] d IH]; simpl; auto.
  destruct (Z.eqb k k') eqn:E; [discriminate|].
  intros H. simpl. now rewrite IH.
Qed.

Lemma NoDup_keys_set (d : dict V) k v :
  NoDup (keys d) -> NoDup (keys (set d k v)).
Proof.
  intros Hnd. destruct (get d k) as [v0|] eqn:E.
  - now rewrite (keys_set_present d k v0 v E).
  - rewrite (keys_set_absent d k v E).
    apply NoDup_app; auto.
    + constructor; [intros [] | constructor].
    + intros x Hx [<-|[]]. now apply get_None_keys in E.
Qed.

Lemma In_get_NoDup (d : dict V) k v :
  NoDup (keys d) -> (In (k, v) d <-> get d k = Some v).
Proof.
  intros Hnd. split; [now apply get_In_NoDup | apply get_Some_In].
Qed.

Lemma NoDup_keys_filter (f : Z * V -> bool) (d : dict V) :
  NoDup (keys d) -> NoDup (keys (filter f d)).
Proof.
  unfold keys. induction d as [|kv d IH]; simpl; auto.
  intros H. inversion H as [|? ? Hnotin Hnd]; subst.
  destruct (f kv); simpl; auto.
  constructor; auto.
  intros Hin. apply Hnotin. apply in_map_iff in Hin.
  destruct Hin as (kv' & E & Hin). apply filter_In in Hin.
  apply in_map_iff. exists kv'. tauto.
Qed.
End DictNoDup.

Lemma init_visited l :
  forall (vis : dict bool) x,
    get (fold_left (fun vis node => set vis node false) l vis) x
    = if mem x l then Some false else get vis x.
Proof.
  induction l as [|y l IH]; intros vis x; simpl; auto.
  rewrite IH, get_set. unfold mem. simpl.
  destruct (existsb (Z.eqb x) l); [now rewrite orb_true_r|].
  rewrite orb_false_r. reflexivity.
Qed.

Lemma init_visited_nodup l :
  forall vis : dict bool,
    NoDup (keys vis) ->
    NoDup (keys (fold_left (fun vis node => set vis node false) l vis)).
Proof.
  induction l as [|y l IH]; intros vis H; simpl; auto.
  apply IH. now apply NoDup_keys_set.
Qed.

Lemma count_false_app d1 d2 :
  count_false (d1 ++ d2) = (count_false d1 + count_false d2)%nat.
Proof. unfold count_false. now rewrite map_app, list_sum_app. Qed.

Lemma count_false_set vis v :
  get vis v = Some false ->
  S (count_false (set vis v true)) = count_false vis.
Proof.
  intros H. destruct (set_split vis v false true H) as (d1 & d2 & H1 & H2).
  rewrite H2, H1. rewrite !count_false_app.
  unfold count_false. simpl. lia.
Qed.

Lemma contains_get {V : Type} (d : dict V) k :
  contains d k = true -> exists v, get d k = Some v.
Proof. unfold contains. destruct (get d k); [eauto | discriminate]. Qed.

Lemma get_contains {V : Type} (d : dict V) k v :
  get d k = Some v -> contains d k = true.
Proof. unfold contains. now intros ->. Qed.

Section Search.
Variable g : DiGraph.
Variable m : dict (dict Z).
Variable s : Z.
Hypothesis Harcs : arcs_ok g m = true.

Lemma arc_vertex u v : arc m u v -> vertex g v.
Proof.
  unfold arc, adjacency, vertex. intros H.
  destruct (get m u) as [d|] eqn:E; [|destruct H].
  apply get_Some_In in E. apply in_map_iff in H.
  destruct H as ([v' w] & Ev & Hin). simpl in Ev. subst v'.
  unfold arcs_ok in Harcs. rewrite forallb_forall in Harcs.
  specialize (Harcs _ E). simpl in Harcs.
  rewrite forallb_forall in Harcs. now specialize (Harcs _ Hin).
Qed.

(** ** One neighbour *)

Lemma bfs_visit_step u rest v st :
  BInv g m s (pending u (v :: rest)) st ->
  get (fst st) u = Some true ->
  arc m u v ->
  exists st',
    bfs_visit st v = Return st' /\
    BInv g m s (pending u rest) st' /\
    get (fst st') u = Some true /\
    (bfs_measure st' <= bfs_measure st)%nat.
Proof.
  intros HI Hu Harc. destruct st as [vis queue]. simpl in *.
  destruct HI as [I1 I2 I3 I4 I5 I6]. simpl in *.
  assert (Hv : exists b, get vis v = Some b).
  { apply contains_get. rewrite I1. now apply arc_vertex with u. }
  destruct Hv as [b Hv].
  unfold bfs_visit, subscript. simpl. rewrite Hv. cbn [bind].
  destruct b; cbn [negb].
  - exists (vis, queue). split; [reflexivity|]. split; [|split; auto].
    constructor; simpl; auto.
    intros u0 v0 Hu0 Ha. destruct (I6 _ _ Hu0 Ha) as [H|[H|H]]; auto.
    destruct H as [-> [<-|H]]; auto. right. left. now split.
  - exists (set vis v true, queue ++ [v]). split; [reflexivity|].
    split; [|split].
    + constructor; simpl.
      * intros x. rewrite contains_set, <- I1.
        destruct (Z.eqb x v) eqn:E; auto.
        apply Z.eqb_eq in E. subst x. simpl. symmetry.
        now apply get_contains with false.
      * now apply NoDup_keys_set.
      * rewrite get_set. now destruct (Z.eqb s v).
      * intros x. rewrite get_set. destruct (Z.eqb x v) eqn:E; auto.
        apply Z.eqb_eq in E. subst x. intros _.
        apply reach_step with u; auto.
      * intros x Hx. rewrite get_set. destruct (Z.eqb x v) eqn:E; auto.
        apply in_app_iff in Hx. destruct Hx as [Hx|[<-|[]]]; auto.
        now rewrite Z.eqb_refl in E.
      * intros u0 v0. rewrite !get_set.
        destruct (Z.eqb u0 v) eqn:E.
        -- apply Z.eqb_eq in E. subst u0. intros _ _. left.
           apply in_app_iff. right. now left.
        -- intros Hu0 Ha. destruct (I6 _ _ Hu0 Ha) as [H|[H|H]].
           ++ left. apply in_app_iff. now left.
           ++ destruct H as [-> [<-|H]].
              ** right. right. now rewrite Z.eqb_refl.
              ** right. left. now split.
           ++ right. right. rewrite H. now destruct (Z.eqb v0 v).
    + simpl. rewrite get_set. rewrite Hu. now destruct (Z.eqb u v).
    + unfold bfs_measure. simpl. rewrite length_app. simpl.
      pose proof (count_false_set vis v Hv). lia.
Qed.

Lemma bfs_visit_all u rest :
  forall st,
    (forall y, In y rest -> arc m u y) ->
    BInv g m s (pending u rest) st ->
    get (fst st) u = Some true ->
    exists st',
      for_each rest bfs_visit st = Return st' /\
      BInv g m s no_pending st' /\
      (bfs_measure st' <= bfs_measure st)%nat.
Proof.
  induction rest as [|v rest IH]; intros st Hsub HI Hu.
  - exists st. split; [reflexivity|]. split; [|lia].
    destruct HI as [I1 I2 I3 I4 I5 I6]. constructor; auto.
    intros u0 v0 Hu0 Ha. destruct (I6 _ _ Hu0 Ha) as [H|[H|H]]; auto.
    destruct H as [_ []].
  - destruct (bfs_visit_step u rest v st HI Hu) as (st1 & Hr & HI1 & Hu1 & Hle1).
    { apply Hsub. now left. }
    destruct (IH st1) as (st2 & Hf & HI2 & Hle2); auto.
    { intros y Hy. apply Hsub. now right. }
    exists st2. split; [|split; auto; lia].
    simpl. rewrite Hr. exact Hf.
Qed.

(** ** The search loop ends with the reachable vertices marked *)

Lemma bfs_loop_total :
  forall n st,
    bfs_measure st = n ->
    BInv g m s no_pending st ->
    exists fuel st',
      (forall fuel', (fuel <= fuel')%nat ->
                     bfs_loop fuel' (neighbours_of g m) st = Return st') /\
      BInv g m s no_pending st' /\
      snd st' = [].
Proof.
  induction n as [n IH] using lt_wf_ind. intros [vis queue] En HI.
  destruct queue as [|u queue].
  - exists 0%nat, (vis, []). split; [|split; auto].
    intros fuel' _. now destruct fuel'.
  - assert (Hu : get vis u = Some true)
      by (apply (binv_queue _ _ _ _ _ HI); now left).
    assert (Hnb : neighbours_of g m u = Return (adjacency m u)).
    { unfold neighbours_of.
      rewrite <- (binv_keys _ _ _ _ _ HI u). simpl.
      now rewrite (get_contains _ _ _ Hu). }
    assert (HI1 : BInv g m s (pending u (keys (adjacency m u))) (vis, queue)).
    { destruct HI as [I1 I2 I3 I4 I5 I6]. simpl in *. constructor; simpl; auto.
      intros u0 v0 Hu0 Ha. destruct (I6 _ _ Hu0 Ha) as [H|[H|H]]; auto.
      - destruct H as [<-|H]; auto. right. left. now split.
      - destruct H. }
    destruct (bfs_visit_all u _ (vis, queue) (fun y H => H) HI1 Hu)
      as (st1 & Hf & HI' & Hle).
    destruct (IH (bfs_measure st1)) with (st := st1)
      as (fuel & st' & Hrun & HI2 & Hq); auto.
    { subst n. unfold bfs_measure in *. simpl in *. lia. }
    exists (S fuel), st'. split; [|split; auto].
    intros fuel' Hfuel. destruct fuel' as [|fuel']; [lia|].
    cbn [bfs_loop snd fst]. rewrite Hnb. cbn [bind]. rewrite Hf. cbn [bind].
    apply Hrun. lia.
Qed.

Lemma list_remove_spec l x :
  In x l -> NoDup l ->
  exists l', list_remove l x = Return l' /\ NoDup l' /\
             forall y, In y l' <-> In y l /\ y <> x.
Proof.
  induction l as [|z l IH]; intros Hin Hnd; [destruct Hin|].
  inversion Hnd as [|? ? Hnotin Hnd']; subst. simpl.
  destruct (Z.eqb z x) eqn:E.
  - apply Z.eqb_eq in E. subst z. exists l. split; auto. split; auto.
    intros y. split.
    + intros Hy. split; [now right|]. intros ->. contradiction.
    + intros [[Hy|Hy] Hne]; [congruence | auto].
  - apply Z.eqb_neq in E. destruct Hin as [Hin|Hin]; [contradiction|].
    destruct (IH Hin Hnd') as (l' & Hr & Hnd1 & Hl').
    exists (z :: l'). rewrite Hr. cbn [bind]. split; auto. split.
    + constructor; auto. intros Hz. apply Hl' in Hz. tauto.
    + intros y. simpl. rewrite Hl'. split.
      * intros [<-|[Hy Hne]]; auto.
      * intros [[Hy|Hy] Hne]; auto.
Qed.

(** The search from a vertex [s] ends and returns, without repetition,
    the vertices other than [s] that can be reached from [s]. *)
Lemma bfs_spec :
  vertex g s ->
  exists fuel l,
    (forall fuel', (fuel <= fuel')%nat ->
                   bfs fuel' g (neighbours_of g m) s = Return l) /\
    NoDup l /\
    forall x, In x l <-> x <> s /\ reach m s x.
Proof.
  intros Hs.
  set (vis0 := fold_left (fun vis node => set vis node false)
                         (keys (get_all_v g)) ([] : dict bool)).
  set (vis1 := set vis0 s true).
  assert (Hget : forall x, get vis1 x =
                           if Z.eqb x s then Some true
                           else if mem x (keys (graph_v g)) then Some false
                                else None).
  { intros x. unfold vis1, vis0, get_all_v. now rewrite get_set, init_visited. }
  assert (HI : BInv g m s no_pending (vis1, [] ++ [s])).
  { constructor; simpl.
    - intros x. unfold contains at 1. rewrite Hget.
      destruct (Z.eqb x s) eqn:E.
      + apply Z.eqb_eq in E. subst x. symmetry. exact Hs.
      + destruct (mem x (keys (graph_v g))) eqn:Em.
        * symmetry. apply contains_keys. now apply mem_In.
        * destruct (contains (graph_v g) x) eqn:Ec; auto.
          apply contains_keys, mem_In in Ec. congruence.
    - apply NoDup_keys_set. apply init_visited_nodup. constructor.
    - now rewrite Hget, Z.eqb_refl.
    - intros x. rewrite Hget. destruct (Z.eqb x s) eqn:E.
      + apply Z.eqb_eq in E. subst x. intros _. constructor.
      + destruct (mem x (keys (graph_v g))); discriminate.
    - intros x [<-|[]]. now rewrite Hget, Z.eqb_refl.
    - intros u v. rewrite Hget. destruct (Z.eqb u s) eqn:E.
      + apply Z.eqb_eq in E. subst u. intros _ _. left. now left.
      + destruct (mem u (keys (graph_v g))); discriminate. }
  destruct (bfs_loop_total _ _ eq_refl HI) as (fuel & [vis queue] & Hrun & HI' & Hq).
  simpl in Hq. subst queue.
  destruct HI' as [I1 I2 I3 I4 I5 I6]. simpl in *.
  assert (Hlist : forall x, In x (map fst (filter snd vis)) <-> get vis x = Some true).
  { intros x. rewrite in_map_iff. split.
    - intros ([x' b] & E & Hin). simpl in E. subst x'.
      apply filter_In in Hin. destruct Hin as [Hin Hb]. simpl in Hb. subst b.
      now apply get_In_NoDup.
    - intros H. exists (x, true). split; auto.
      apply filter_In. split; auto. now apply get_Some_In. }
  destruct (list_remove_spec (map fst (filter snd vis)) s) as (l & Hrem & Hnd & Hl).
  { now apply Hlist. }
  { now apply (NoDup_keys_filter snd vis). }
  exists fuel, l. split; [|split; auto].
  - intros fuel' Hf. unfold bfs. cbv zeta. fold vis0. fold vis1.
    change (([] : list Z) ++ [s]) with [s] in *.
    rewrite (Hrun fuel' Hf). cbn [bind fst]. exact Hrem.
  - intros x. rewrite Hl, Hlist. split.
    + intros [Hx Hne]. split; auto.
    + intros [Hne Hr]. split; auto. clear Hne.
      induction Hr as [|u v Hr IH Ha]; auto.
      destruct (I6 u v IH Ha) as [[]|[[]|H]]. exact H.
Qed.

End Search.

Lemma walk_source g s t d : walk g s t d -> vertex g s.
Proof. intros H. induction H; auto. Qed.

Lemma edge_arc g u v w : edge g u v w -> arc (graph_edges_out g) u v.
Proof.
  unfold edge, arc. intros H. apply get_Some_In in H.
  change v with (fst (v, w)). now apply in_map.
Qed.

Lemma reach_out_reachable g s t :
  vertex g s -> (reach (graph_edges_out g) s t <-> reachable g s t).
Proof.
  intros Hs. split.
  - intros H. induction H as [|u v _ [d IH] Ha].
    + exists 0. now constructor.
    + destruct (key_has_edge g u v Ha) as [w He].
      exists (d + w). now apply walk_step with u.
  - intros [d H]. induction H as [|u v d w _ IH He].
    + constructor.
    + apply reach_step with u; auto. now apply edge_arc with w.
Qed.

Lemma reach_left m a b c : arc m a b -> reach m b c -> reach m a c.
Proof.
  intros Ha H. induction H as [|u v _ IH Hv].
  - apply reach_step with a; [constructor | exact Ha].
  - now apply reach_step with u.
Qed.

Lemma reach_reverse m1 m2 s t :
  (forall u v, arc m1 u v -> arc m2 v u) -> reach m1 s t -> reach m2 t s.
Proof.
  intros Hrev H. induction H as [|u v _ IH Ha].
  - constructor.
  - apply reach_left with u; auto.
Qed.

Lemma mirrored_arcs g :
  mirrored g = true ->
  (forall u v, arc (graph_edges_out g) u v -> arc (graph_edges_in g) v u) /\
  (forall u v, arc (graph_edges_in g) u v -> arc (graph_edges_out g) v u).
Proof.
  unfold mirrored. intros H. apply andb_true_iff in H. destruct H as [H1 H2].
  assert (Hgen : forall m1 m2,
             forallb (fun entry : Z * dict Z =>
                        forallb (fun dw : Z * Z =>
                                   mem (fst entry) (keys (adjacency m2 (fst dw))))
                                (snd entry)) m1 = true ->
             forall u v, arc m1 u v -> arc m2 v u).
  { intros m1 m2 H u v. unfold arc at 1. unfold adjacency at 1.
    destruct (get m1 u) as [d|] eqn:E; [|intros []].
    intros Hin. apply get_Some_In in E. apply in_map_iff in Hin.
    destruct Hin as ([v' w] & Ev & Hin). simpl in Ev. subst v'.
    rewrite forallb_forall in H. specialize (H _ E). simpl in H.
    rewrite forallb_forall in H. specialize (H _ Hin). simpl in H.
    now apply mem_In in H. }
  split; apply Hgen; assumption.
Qed.

(** X1: for a vertex [v] of a graph whose out-edges lead to vertices,
    enough fuel makes [bfs_out(v)] return, without repetition, exactly the
    vertices other than [v] that can be reached from [v]. *)
Theorem bfs_out_reachable g v :
  arcs_ok g (graph_edges_out g) = true -> vertex g v ->
  exists fuel l,
    (forall fuel', (fuel <= fuel')%nat -> bfs_out fuel' g v = Return l) /\
    NoDup l /\
    forall x, In x l <-> x <> v /\ reachable g v x.
Proof.
  intros Hok Hv.
  destruct (bfs_spec g (graph_edges_out g) v Hok Hv) as (fuel & l & Hrun & Hnd & Hl).
  exists fuel, l. split; [exact Hrun|]. split; auto.
  intros x. rewrite Hl. now rewrite (reach_out_reachable g v x Hv).
Qed.

Lemma bfs_out_reachable_witness :
  arcs_ok cycle_graph (graph_edges_out cycle_graph) = true /\
  vertex cycle_graph 1 /\
  exists fuel l,
    (forall fuel', (fuel <= fuel')%nat -> bfs_out fuel' cycle_graph 1 = Return l) /\
    NoDup l /\
    forall x, In x l <-> x <> 1 /\ reachable cycle_graph 1 x.
Proof.
  split; [reflexivity|]. split; [reflexivity|].
  apply (bfs_out_reachable cycle_graph 1); reflexivity.
Defined.

(** X2: for a vertex [v] of a graph whose adjacency mappings mirror each
    other and whose in-edges come from vertices, enough fuel makes
    [bfs_in(v)] return, without repetition, exactly the vertices other than
    [v] from which [v] can be reached. *)
Theorem bfs_in_reachable g v :
  arcs_ok g (graph_edges_in g) = true -> mirrored g = true -> vertex g v ->
  exists fuel l,
    (forall fuel', (fuel <= fuel')%nat -> bfs_in fuel' g v = Return l) /\
    NoDup l /\
    forall x, In x l <-> x <> v /\ reachable g x v.
Proof.
  intros Hok Hm Hv.
  destruct (bfs_spec g (graph_edges_in g) v Hok Hv) as (fuel & l & Hrun & Hnd & Hl).
  destruct (mirrored_arcs g Hm) as [Hoi Hio].
  exists fuel, l. split; [exact Hrun|]. split; auto.
  intros x. rewrite Hl. split; intros [Hne H]; split; auto.
  - assert (Hx : vertex g x).
    { destruct H as [|u y _ Ha]; auto. now apply (arc_vertex g _ Hok u). }
    apply (reach_out_reachable g x v Hx).
    now apply reach_reverse with (graph_edges_in g) .
  - destruct H as [d H].
    assert (Hx : vertex g x) by now apply walk_source with v d.
    apply reach_reverse with (graph_edges_out g); auto.
    apply (reach_out_reachable g x v Hx). now exists d.
Qed.

Lemma bfs_in_reachable_witness :
  arcs_ok cycle_graph (graph_edges_in cycle_graph) = true /\
  mirrored cycle_graph = true /\ vertex cycle_graph 3 /\
  exists fuel l,
    (forall fuel', (fuel <= fuel')%nat -> bfs_in fuel' cycle_graph 3 = Return l) /\
    NoDup l /\
    forall x, In x l <-> x <> 3 /\ reachable cycle_graph x 3.
Proof.
  split; [reflexivity|]. split; [reflexivity|]. split; [reflexivity|].
  apply (bfs_in_reachable cycle_graph 3); reflexivity.
Defined.

Lemma connected_component_type_error g v :
  arcs_ok g (graph_edges_out g) = true ->
  arcs_ok g (graph_edges_in g) = true ->
  vertex g v ->
  exists fuel, forall fuel', (fuel <= fuel')%nat ->
    connected_component fuel' g v = Raise TypeError.
Proof.
  intros Ho Hi Hv.
  destruct (bfs_spec g (graph_edges_out g) v Ho Hv) as (f1 & l1 & Hr1 & _).
  destruct (bfs_spec g (graph_edges_in g) v Hi Hv) as (f2 & l2 & Hr2 & _).
  exists (Nat.max f1 f2). intros fuel' Hf. unfold connected_component.
  unfold bfs_in, bfs_out.
  change (all_in_edges_of_node g) with (neighbours_of g (graph_edges_in g)).
  change (all_out_edges_of_node g) with (neighbours_of g (graph_edges_out g)).
  rewrite Hr2 by lia. cbn [bind]. rewrite Hr1 by lia. reflexivity.
Qed.

(** X3: for every vertex of a graph whose stored edges join vertices, both
    searches of [connected_component] end and the call then raises
    [TypeError] at [set_in & set_out]; it returns for no vertex. *)
Theorem connected_component_raises g v :
  arcs_ok g (graph_edges_out g) = true ->
  arcs_ok g (graph_edges_in g) = true ->
  vertex g v ->
  exists fuel, forall fuel', (fuel <= fuel')%nat ->
    connected_component fuel' g v = Raise TypeError.
Proof. apply connected_component_type_error. Qed.

Lemma connected_component_raises_witness :
  arcs_ok cycle_graph (graph_edges_out cycle_graph) = true /\
  arcs_ok cycle_graph (graph_edges_in cycle_graph) = true /\
  vertex cycle_graph 0 /\
  exists fuel, forall fuel', (fuel <= fuel')%nat ->
    connected_component fuel' cycle_graph 0 = Raise TypeError.
Proof.
  split; [reflexivity|]. split; [reflexivity|]. split; [reflexivity|].
  apply (connected_component_raises cycle_graph 0); reflexivity.
Defined.

(** X4: [connected_components] returns the empty list on a graph without
    vertices, whatever the fuel; on a graph with a vertex, whose stored
    edges join vertices, enough fuel makes it end in the [TypeError] of its
    first [connected_component] call. *)
Theorem connected_components_outcome g :
  (graph_v g = [] -> forall fuel, connected_components fuel g = Return []) /\
  (graph_v g <> [] ->
   arcs_ok g (graph_edges_out g) = true ->
   arcs_ok g (graph_edges_in g) = true ->
   exists fuel, forall fuel', (fuel <= fuel')%nat ->
     connected_components fuel' g = Raise TypeError).
Proof.
  split.
  - intros E fuel. unfold connected_components, get_all_v. now rewrite E.
  - intros Hne Ho Hi.
    destruct (graph_v g) as [|[k n] rest] eqn:E; [congruence|].
    assert (Hk : vertex g k).
    { unfold vertex, contains. rewrite E. simpl. now rewrite Z.eqb_refl. }
    destruct (connected_component_type_error g k Ho Hi Hk) as [fuel Hrun].
    exists fuel. intros fuel' Hf.
    unfold connected_components, get_all_v. rewrite E.
    cbn [keys map fst for_each]. unfold components_step at 1.
    cbn [mem existsb fst negb]. rewrite (Hrun fuel' Hf). reflexivity.
Qed.

Lemma connected_components_outcome_witness :
  graph_v empty_graph = [] /\
  graph_v cycle_graph <> [] /\
  arcs_ok cycle_graph (graph_edges_out cycle_graph) = true /\
  arcs_ok cycle_graph (graph_edges_in cycle_graph) = true /\
  (forall fuel, connected_components fuel empty_graph = Return []) /\
  exists fuel, forall fuel', (fuel <= fuel')%nat ->
    connected_components fuel' cycle_graph = Raise TypeError.
Proof.
  split; [reflexivity|]. split; [discriminate|].
  split; [reflexivity|]. split; [reflexivity|]. split.
  - apply (proj1 (connected_components_outcome empty_graph)). reflexivity.
  - apply (proj2 (connected_components_outcome cycle_graph));
      [discriminate | reflexivity | reflexivity].
Defined.

(** * Beyond the claims: loading *)

Lemma load_node_cases g node :
  (exists node_id p, load_node g node = Return (snd (add_node g node_id p))) \/
  (exists e, load_node g node = Raise e).
Proof.
  unfold load_node, json_subscript, as_number, as_position.
  repeat match goal with
         | |- context [match ?x with _ => _ end] => destruct x; cbn [bind]
         end; eauto.
Qed.

Lemma load_edge_cases g e :
  (exists s d w, load_edge g e = Return (snd (add_edge g s d w))) \/
  (exists x, load_edge g e = Raise x).
Proof.
  unfold load_edge, json_subscript, as_number.
  repeat match goal with
         | |- context [match ?x with _ => _ end] => destruct x; cbn [bind]
         end; eauto.
Qed.

Lemma keeps_refl g : keeps g g.
Proof. intros v _. reflexivity. Qed.

Lemma keeps_trans g1 g2 g3 : keeps g1 g2 -> keeps g2 g3 -> keeps g1 g3.
Proof.
  intros H12 H23 v Hv. rewrite <- (H12 v Hv). apply H23.
  apply position_vertex. rewrite (H12 v Hv). now apply position_vertex.
Qed.

Lemma add_node_keeps g k p : keeps g (snd (add_node g k p)).
Proof.
  intros v Hv. unfold position.
  rewrite (proj2 (add_node_spec g k p)).
  destruct (contains_get _ _ Hv) as [n Hn]. now rewrite Hn.
Qed.

Lemma add_edge_graph_v g s d w : graph_v (snd (add_edge g s d w)) = graph_v g.
Proof.
  unfold add_edge.
  now destruct (negb (contains (graph_v g) s) || negb (contains (graph_v g) d)
                || Z.ltb w 0 || Z.eqb s d).
Qed.

Lemma add_edge_keeps g s d w : keeps g (snd (add_edge g s d w)).
Proof. intros v _. unfold position. now rewrite add_edge_graph_v. Qed.

Lemma load_node_keeps g node g' : load_node g node = Return g' -> keeps g g'.
Proof.
  intros H. destruct (load_node_cases g node) as [(k & p & E)|[e E]];
    rewrite E in H; inversion H. apply add_node_keeps.
Qed.

Lemma load_edge_keeps g e g' : load_edge g e = Return g' -> keeps g g'.
Proof.
  intros H. destruct (load_edge_cases g e) as [(s & d & w & E)|[x E]];
    rewrite E in H; inversion H. apply add_edge_keeps.
Qed.

Lemma mutate_each_keeps {A : Type} (step : DiGraph -> A -> outcome DiGraph) l :
  (forall g x g', step g x = Return g' -> keeps g g') ->
  forall g, keeps g (snd (mutate_each step l g)).
Proof.
  intros Hstep. induction l as [|x l IH]; intros g; simpl.
  - apply keeps_refl.
  - destruct (step g x) as [g'| |] eqn:E; simpl; try apply keeps_refl.
    apply keeps_trans with g'; auto. now apply Hstep with x.
Qed.

Lemma mutate_each_outcome {A : Type} (step : DiGraph -> A -> outcome DiGraph) l :
  (forall g x, step g x <> OutOfFuel) ->
  forall g, fst (mutate_each step l g) = Return tt \/
            exists e, fst (mutate_each step l g) = Raise e.
Proof.
  intros Hstep. induction l as [|x l IH]; intros g; simpl; auto.
  destruct (step g x) as [g'| |] eqn:E; simpl; eauto.
  now apply Hstep in E.
Qed.

Lemma load_node_ends g node : load_node g node <> OutOfFuel.
Proof.
  destruct (load_node_cases g node) as [(k & p & E)|[e E]]; rewrite E; discriminate.
Qed.

Lemma load_edge_ends g e : load_edge g e <> OutOfFuel.
Proof.
  destruct (load_edge_cases g e) as [(s & d & w & E)|[x E]]; rewrite E; discriminate.
Qed.

Lemma json_list_ends s k :
  (n <- json_subscript s k ;; json_iter n) <> OutOfFuel.
Proof.
  destruct s as [z|x|l|fields]; simpl; try discriminate.
  destruct (field fields k) as [j|]; simpl; try discriminate.
  destruct j; discriminate.
Qed.

Lemma load_body_spec g s :
  (fst (load_body g s) = Return true \/ exists e, fst (load_body g s) = Raise e) /\
  keeps g (snd (load_body g s)).
Proof.
  unfold load_body.
  destruct (n <- json_subscript s "Nodes" ;; json_iter n) as [nodes|e|] eqn:En.
  2:{ simpl. split; [eauto | apply keeps_refl]. }
  2:{ now apply json_list_ends in En. }
  pose proof (mutate_each_outcome load_node nodes load_node_ends g) as Ho1.
  pose proof (mutate_each_keeps load_node nodes load_node_keeps g) as Hk1.
  destruct (mutate_each load_node nodes g) as [r1 g1]. simpl in Ho1, Hk1.
  destruct Ho1 as [->|[e ->]]; [|simpl; split; eauto].
  destruct (e <- json_subscript s "Edges" ;; json_iter e) as [edges|e|] eqn:Ee.
  2:{ simpl. split; eauto. }
  2:{ now apply json_list_ends in Ee. }
  pose proof (mutate_each_outcome load_edge edges load_edge_ends g1) as Ho2.
  pose proof (mutate_each_keeps load_edge edges load_edge_keeps g1) as Hk2.
  destruct (mutate_each load_edge edges g1) as [r2 g2]. simpl in Ho2, Hk2.
  destruct Ho2 as [->|[e ->]]; simpl; split; eauto using keeps_trans.
Qed.

(** X5: [load_from_json] returns a boolean whenever the file can be opened,
    [False] in particular when its content does not parse; when the file
    cannot be opened it raises [UnboundLocalError] and leaves the graph as
    it was. *)
Theorem load_from_json_outcome g w name :
  (forall c, w name = Content c ->
             fst (load_from_json g w name) = Return true \/
             fst (load_from_json g w name) = Return false) /\
  (w name = Content None -> load_from_json g w name = (Return false, g)) /\
  (w name = Absent \/ w name = NoAccess ->
   load_from_json g w name = (Raise UnboundLocalError, g)).
Proof.
  unfold load_from_json, open_read. split; [|split].
  - intros c ->. destruct c as [s|]; cbn [json_load]; [|now right].
    destruct (load_body_spec g s) as [Ho _].
    destruct (load_body g s) as [r g']. simpl in *.
    destruct Ho as [->|[e ->]]; auto.
  - intros ->. reflexivity.
  - intros [-> | ->]; reflexivity.
Qed.

Lemma load_from_json_outcome_witness :
  junk_files "bad.json"%string = Content None /\
  (junk_files "none.json"%string = Absent \/
   junk_files "none.json"%string = NoAccess) /\
  (fst (load_from_json docstring_graph junk_files "bad.json") = Return true \/
   fst (load_from_json docstring_graph junk_files "bad.json") = Return false) /\
  load_from_json docstring_graph junk_files "bad.json"
  = (Return false, docstring_graph) /\
  load_from_json docstring_graph junk_files "none.json"
  = (Raise UnboundLocalError, docstring_graph).
Proof.
  split; [reflexivity|]. split; [left; reflexivity|].
  pose proof (load_from_json_outcome docstring_graph junk_files "bad.json") as Hb.
  pose proof (load_from_json_outcome docstring_graph junk_files "none.json") as Hn.
  split; [|split].
  - apply (proj1 Hb None). reflexivity.
  - apply (proj1 (proj2 Hb)). reflexivity.
  - apply (proj2 (proj2 Hn)). left. reflexivity.
Defined.

(** X6: whatever the file holds and whatever the outcome, [load_from_json]
    keeps every vertex the graph had, with the position it had. *)
Theorem load_from_json_keeps g w name v :
  vertex g v ->
  position (snd (load_from_json g w name)) v = position g v.
Proof.
  intros Hv. revert v Hv. fold (keeps g (snd (load_from_json g w name))).
  unfold load_from_json.
  destruct (open_read w name) as [c|e|]; simpl; try apply keeps_refl.
  destruct (json_load c) as [s|e|]; simpl; try apply keeps_refl.
  pose proof (proj2 (load_body_spec g s)) as Hk.
  destruct (load_body g s) as [r g']. exact Hk.
Qed.

Lemma load_from_json_keeps_witness :
  vertex docstring_graph 0 /\
  position (snd (load_from_json docstring_graph
                   (one_file "g.json" other_document) "g.json")) 0
  = position docstring_graph 0.
Proof.
  split; [reflexivity|].
  apply (load_from_json_keeps docstring_graph
           (one_file "g.json" other_document) "g.json" 0).
  reflexivity.
Defined.

Lemma add_nodes_present ns :
  forall g,
    (forall n, In n ns -> contains (graph_v g) (key n) = true) ->
    add_nodes ns g = g.
Proof.
  induction ns as [|n ns IH]; intros g H; [reflexivity|].
  rewrite add_nodes_cons. unfold add_node.
  rewrite (H n (or_introl eq_refl)). simpl. apply IH.
  intros n' Hn'. apply H. now right.
Qed.

Lemma values_present g n :
  well_formed g = true -> In n (values (graph_v g)) ->
  contains (graph_v g) (key n) = true.
Proof.
  intros Hwf Hin. destruct (well_formed_vertices g Hwf) as [_ Hkey].
  unfold values in Hin. apply in_map_iff in Hin.
  destruct Hin as ([k n'] & E & Hin). simpl in E. subst n'.
  rewrite (Hkey _ _ Hin). apply contains_keys.
  change k with (fst (k, n)). now apply in_map.
Qed.

(** Adding the stored edges of [g] to [g] again changes no vertex and no
    edge triple. *)
Lemma add_edges_again g ts :
  well_formed g = true -> Permutation (triples g) ts ->
  same_graph g (add_edges ts g).
Proof.
  intros Hwf Hts.
  assert (Hval : valid_triples ts g).
  { intros s d w Hin. apply (Permutation_in _ (Permutation_sym Hts)) in Hin.
    now apply triples_valid. }
  assert (Hfun : functional ts).
  { intros s d w w' H1 H2.
    apply (Permutation_in _ (Permutation_sym Hts)) in H1, H2.
    apply (triples_edge g s d w Hwf) in H1.
    apply (triples_edge g s d w' Hwf) in H2.
    unfold edge in H1, H2. congruence. }
  destruct (add_edges_spec ts g Hval Hfun) as [Hv He].
  constructor.
  - intros v. unfold vertex. now rewrite Hv.
  - intros v. unfold position. now rewrite Hv.
  - intros s d w. rewrite He. split.
    + intros [H|[_ H]]; auto.
      apply (triples_edge g s d w Hwf).
      now apply (Permutation_in _ (Permutation_sym Hts)).
    + intros H. left. apply (Permutation_in _ Hts).
      now apply (triples_edge g s d w Hwf).
Qed.

(** X7: saving a well-formed graph and loading the file back into the same
    graph succeeds and changes neither the vertex ids, nor the positions,
    nor the [(src, dest, weight)] triples. *)
Theorem save_then_load_back g w name :
  well_formed g = true -> writable w name = true ->
  exists w' g',
    save_to_json g w name = (Return true, w') /\
    load_from_json g w' name = (Return true, g') /\
    same_graph g g'.
Proof.
  intros Hwf Hw.
  exists (write_file (write_file w name None) name
            (Some (document (map json_of_node (values (graph_v g)))
                            (map json_of_triple (triples g))))),
         (add_edges (triples g) g).
  split; [|split].
  - unfold save_to_json, open_write. unfold writable in Hw.
    destruct (w name); try discriminate; now rewrite save_doc_spec.
  - unfold load_from_json, open_read, write_file. rewrite String.eqb_refl.
    cbn [json_load]. unfold load_body, document.
    cbn [json_subscript field String.eqb Ascii.eqb Bool.eqb bind json_iter].
    rewrite load_nodes_saved.
    rewrite add_nodes_present by (intros n; now apply values_present).
    cbn [json_subscript field String.eqb Ascii.eqb Bool.eqb bind json_iter].
    rewrite load_edges_saved. reflexivity.
  - now apply add_edges_again.
Qed.

Lemma save_then_load_back_witness :
  well_formed placed_graph = true /\
  writable no_files "graph.json" = true /\
  exists w' g',
    save_to_json placed_graph no_files "graph.json" = (Return true, w') /\
    load_from_json placed_graph w' "graph.json" = (Return true, g') /\
    same_graph placed_graph g'.
Proof.
  split; [reflexivity|]. split; [reflexivity|].
  apply (save_then_load_back placed_graph no_files "graph.json"); reflexivity.
Defined.

Lemma load_edges_stop ts z rest :
  forall g,
    mutate_each load_edge (map json_of_triple ts ++ JNum z :: rest) g
    = (Raise TypeError, add_edges ts g).
Proof.
  induction ts as [|t ts IH]; intros g; [reflexivity|].
  cbn [map app mutate_each]. rewrite load_edge_saved. apply IH.
Qed.

(** X8: a load that fails part-way keeps what it had done: when the
    vertex entries are in order and the edge list holds a number where an
    edge entry should be, [load_from_json] returns [False] and leaves the
    graph with all the vertices and with the edges listed before that
    number. *)
Theorem load_from_json_partial g w name ns ts z rest :
  w name = Content (Some (document (map json_of_node ns)
                                   (map json_of_triple ts ++ JNum z :: rest))) ->
  load_from_json g w name = (Return false, add_edges ts (add_nodes ns g)).
Proof.
  intros Hfile. unfold load_from_json, open_read. rewrite Hfile.
  cbn [json_load]. unfold load_body, document.
  cbn [json_subscript field String.eqb Ascii.eqb Bool.eqb bind json_iter].
  rewrite load_nodes_saved.
  cbn [json_subscript field String.eqb Ascii.eqb Bool.eqb bind json_iter].
  rewrite load_edges_stop. reflexivity.
Qed.

Lemma load_from_json_partial_witness :
  one_file "g.json"
           (document (map json_of_node [mkNode 0 None Inf; mkNode 1 None Inf])
                     (map json_of_triple [(0, (1, 5))] ++ JNum 3 :: []))
           "g.json"%string
  = Content (Some (document
                     (map json_of_node [mkNode 0 None Inf; mkNode 1 None Inf])
                     (map json_of_triple [(0, (1, 5))] ++ JNum 3 :: []))) /\
  load_from_json empty_graph
    (one_file "g.json"
       (document (map json_of_node [mkNode 0 None Inf; mkNode 1 None Inf])
                 (map json_of_triple [(0, (1, 5))] ++ JNum 3 :: [])))
    "g.json"
  = (Return false,
     add_edges [(0, (1, 5))]
               (add_nodes [mkNode 0 None Inf; mkNode 1 None Inf] empty_graph)).
Proof.
  split; [reflexivity|].
  apply (load_from_json_partial empty_graph _ "g.json"
           [mkNode 0 None Inf; mkNode 1 None Inf] [(0, (1, 5))] 3 []).
  reflexivity.
Defined.

(** * Beyond the claims: the path returned by [shortest_path] *)

Lemma for_each_preserves {A S : Type} (P : S -> Prop)
  (body : S -> A -> outcome S) l :
  (forall st x st', P st -> body st x = Return st' -> P st') ->
  forall st st', P st -> for_each l body st = Return st' -> P st'.
Proof.
  intros Hbody. induction l as [|x l IH]; intros st st' HP H; simpl in H.
  - inversion H. now subst.
  - destruct (body st x) as [st1| |] eqn:E; simpl in H; try discriminate.
    apply (IH st1); auto. now apply Hbody with st x.
Qed.

Lemma relax_prev_ok g0 u st v st' :
  prev_ok g0 st -> relax [] u st v = Return st' -> prev_ok g0 st'.
Proof.
  intros [He Hp]. unfold relax. simpl mem. cbn [negb].
  unfold all_out_edges_of_node.
  destruct (contains (graph_v (graph st)) u); cbn [bind]; try discriminate.
  destruct (mem v (keys (adjacency (graph_edges_out (graph st)) u))).
  2:{ intros H. inversion H. subst. now split. }
  unfold get_all_v. rewrite !tag_of_tags.
  destruct (tags (graph st) u) as [tv|] eqn:Htu; cbn [bind]; try discriminate.
  unfold subscript.
  destruct (get (adjacency (graph_edges_out (graph st)) u) v) as [w|] eqn:Hw;
    cbn [bind]; try discriminate.
  destruct (tags (graph st) v) as [tn|] eqn:Htn; cbn [bind]; try discriminate.
  destruct (dist_gtb tn (dist_add tv w)) eqn:G.
  2:{ intros H. inversion H. subst. now split. }
  destruct tv as [du|]; [|destruct tn; discriminate].
  destruct (set_node_tag_spec (graph st) v (Fin (du + w)) tn Htn)
    as (g' & Hset & He' & _ & Ht & _).
  simpl in G |- *. rewrite Hset. cbn [bind].
  intros H. inversion H; subst st'. clear H.
  assert (Hedge : edge g0 u v w) by (unfold edge; now rewrite <- He).
  split; simpl; [congruence|].
  intros c p. unfold tg. simpl. rewrite get_set, !Ht.
  destruct (Z.eqb c v) eqn:Ec.
  - apply Z.eqb_eq in Ec. subst c. intros H. inversion H; subst p.
    destruct (Z.eqb u v) eqn:Eu.
    + apply Z.eqb_eq in Eu. subst u. rewrite Htu in Htn.
      inversion Htn; subst tn. simpl in G. apply Z.ltb_lt in G.
      exists w, (du + w), (du + w). repeat split; auto. lia.
    + exists w, du, (du + w). repeat split; auto. lia.
  - intros H. destruct (Hp c p H) as (w' & dp & dc & Hpe & Hdp & Hdc & Hle).
    unfold tg in Hdp, Hdc. rewrite Hdc.
    destruct (Z.eqb p v) eqn:Ep.
    + apply Z.eqb_eq in Ep. subst p. rewrite Htn in Hdp.
      inversion Hdp; subst tn. simpl in G. apply Z.ltb_lt in G.
      exists w', (du + w), dc. repeat split; auto. lia.
    + exists w', dp, dc. auto.
Qed.

Lemma drain_prev_ok g0 fuel :
  forall st st', prev_ok g0 st -> drain fuel [] st = Return st' -> prev_ok g0 st'.
Proof.
  induction fuel as [|fuel IH]; intros st st' HP H; simpl in H.
  - destruct (heap_min st) as [|[t u] h]; simpl in H; [|discriminate].
    now inversion H; subst.
  - destruct (heap_min st) as [|[t u] h]; simpl in H.
    + now inversion H; subst.
    + destruct (all_out_edges_of_node (graph st) u) as [out_v| |];
        cbn [bind] in H; try discriminate.
      destruct (for_each (keys out_v) (relax [] u)
                         (mkState (graph st) (prev_nodes st) h))
        as [st1| |] eqn:E; cbn [bind] in H; try discriminate.
      apply (IH st1); auto.
      apply (for_each_preserves (prev_ok g0) (relax [] u) (keys out_v))
        with (st := mkState (graph st) (prev_nodes st) h); auto.
      intros s0 x s1. apply relax_prev_ok.
Qed.

Lemma sp_init_prev_ok g0 s st0 :
  Inv g0 s (fun _ => 0%nat) no_pending st0 -> sp_init g0 s = Return st0 ->
  prev_ok g0 st0.
Proof.
  intros HI H. split; [eapply inv_edges; eauto|].
  unfold sp_init in H.
  destruct (for_each (keys (graph_v g0)) (fun g x => set_node_tag g x Inf) g0)
    as [g1| |]; cbn [bind] in H; try discriminate.
  destruct (set_node_tag g1 s (Fin 0)) as [g2| |]; cbn [bind] in H;
    try discriminate.
  destruct (tag_of (graph_v g2) s) as [t0| |]; cbn [bind] in H;
    try discriminate.
  inversion H; subst st0. simpl. discriminate.
Qed.

Lemma back_path_forward g v x li d :
  back_path g v x li d -> path g x v (rev li) d.
Proof.
  intros H. induction H as [v Hv|v u x li d w He _ IH].
  - now constructor.
  - simpl. now apply path_snoc with u.
Qed.

Lemma path_ends g x v p d :
  path g x v p d -> hd_error p = Some x /\ last p x = v.
Proof.
  intros H. induction H as [|u v p d w _ [IH1 IH2] He]; [auto|].
  split.
  - destruct p; [discriminate | exact IH1].
  - apply last_last.
Qed.

Lemma path_walk g x v p d : path g x v p d -> walk g x v d.
Proof.
  intros H. induction H as [|u v p d w _ IH He]; [now constructor|].
  now apply walk_step with u.
Qed.

Section Reconstruction.
Variable g0 : DiGraph.
Variable s : Z.
Hypothesis Hok : edges_ok g0 = true.

Lemma reconstruct_path stamp st :
  Inv g0 s stamp no_pending st -> prev_ok g0 st -> heap_min st = [] ->
  forall n m v d acc,
    Z.to_nat d = n -> stamp v = m -> tg st v = Some (Fin d) ->
    exists fuel li x,
      (forall fuel', (fuel <= fuel')%nat ->
                     reconstruct fuel' st v acc = Return (acc ++ li)) /\
      back_path g0 v x li d /\
      tg st x = Some (Fin 0).
Proof.
  intros HI [_ HP] Hh.
  induction n as [n IH1] using lt_wf_ind.
  induction m as [m IH2] using lt_wf_ind.
  intros v d acc En Em Hv.
  assert (Hd : 0 <= d)
    by (eapply walk_nonneg; [exact Hok | eapply inv_walk; eauto]).
  destruct (Z.ltb 0 d) eqn:G.
  - apply Z.ltb_lt in G.
    assert (Hvs : v <> s).
    { intros ->. pose proof (inv_source _ _ _ _ _ HI) as H0.
      rewrite H0 in Hv. inversion Hv. lia. }
    destruct (get (prev_nodes st) v) as [p|] eqn:Hp.
    2:{ exfalso. eapply inv_has_prev; eauto. }
    destruct (inv_prev _ _ _ _ _ HI _ _ Hp) as (dp & dv & Hdp & Hdv & Hlt).
    rewrite Hv in Hdv. inversion Hdv; subst dv.
    destruct (HP _ _ Hp) as (w & dp' & dv' & He & Hdp' & Hdv' & Hle).
    rewrite Hdp in Hdp'. inversion Hdp'; subst dp'.
    rewrite Hv in Hdv'. inversion Hdv'; subst dv'.
    assert (Heq : d = dp + w).
    { destruct (inv_settled _ _ _ _ _ HI _ _ _ _ He Hdp) as [H|[H|H]].
      - rewrite Hh in H. destruct H.
      - destruct H.
      - destruct H as (dv & Hdv2 & Hle2). rewrite Hv in Hdv2.
        inversion Hdv2. lia. }
    assert (Hdp0 : 0 <= dp)
      by (eapply walk_nonneg; [exact Hok | eapply inv_walk; eauto]).
    assert (Hrec : exists fuel li x,
               (forall fuel', (fuel <= fuel')%nat ->
                  reconstruct fuel' st p (acc ++ [v]) = Return ((acc ++ [v]) ++ li)) /\
               back_path g0 p x li dp /\ tg st x = Some (Fin 0)).
    { destruct Hlt as [Hlt|[Heq' Hlt]].
      - apply (IH1 (Z.to_nat dp)) with (m := stamp p); auto. lia.
      - subst dp. apply (IH2 (stamp p)); auto; lia. }
    destruct Hrec as (fuel & li & x & Hrec & Hbp & Hx).
    exists (S fuel), (v :: li), x. split; [|split; auto].
    + intros fuel' Hf. destruct fuel' as [|fuel']; [lia|].
      cbn [reconstruct]. unfold get_all_v. rewrite tag_of_tags.
      fold (tg st v). rewrite Hv. cbn [bind dist_gtb].
      apply Z.ltb_lt in G. rewrite G. unfold subscript. rewrite Hp. cbn [bind].
      rewrite Hrec by lia. now rewrite <- app_assoc.
    + rewrite Heq. now apply back_cons with p.
  - apply Z.ltb_ge in G. assert (d = 0) by lia. subst d.
    exists 0%nat, [v], v. split; [|split; auto].
    + intros fuel' _.
      destruct fuel'; cbn [reconstruct]; unfold get_all_v; rewrite tag_of_tags;
        fold (tg st v); rewrite Hv; reflexivity.
    + constructor. unfold vertex.
      rewrite <- (inv_keys _ _ _ _ _ HI). now apply tags_contains with (Fin 0).
Qed.

Lemma shortest_path_path t :
  vertex g0 s -> vertex g0 t -> reachable g0 s t ->
  exists fuel d p x,
    (forall fuel', (fuel <= fuel')%nat ->
                   shortest_path fuel' g0 s t = Return (Some (Fin d, p))) /\
    path g0 x t p d /\
    walk g0 s x 0 /\
    (forall d', walk g0 s t d' -> d <= d').
Proof.
  intros Hs Ht Hr.
  destruct (sp_init_inv g0 s Hs) as (st0 & Hinit & HI0).
  pose proof (sp_init_prev_ok g0 s st0 HI0 Hinit) as HP0.
  destruct (drain_total g0 s Hok _ _ st0 _ eq_refl eq_refl HI0)
    as (f1 & st & stamp & Hdrain & HI & Hh).
  pose proof (drain_prev_ok g0 f1 st0 st HP0 (Hdrain f1 (Nat.le_refl _))) as HP.
  destruct (tg_vertex g0 s _ _ _ _ HI Ht) as [[d|] Htag].
  2:{ exfalso. destruct Hr as [d Hw].
      destruct (drained_lower_bound g0 s stamp st HI Hh t d Hw) as (dv & Hdv & _).
      rewrite Htag in Hdv. discriminate. }
  destruct (reconstruct_path stamp st HI HP Hh _ _ t d [] eq_refl eq_refl Htag)
    as (f2 & li & x & Hrec & Hbp & Hx).
  exists (Nat.max f1 f2), d, (rev li), x. split; [|split; [|split]].
  - intros fuel' Hf. rewrite (shortest_path_unfold g0 s fuel' t st0 Hs Ht Hinit).
    rewrite Hdrain by lia. cbn [bind]. rewrite Hrec by lia. cbn [bind app].
    unfold get_all_v. rewrite tag_of_tags. fold (tg st t). rewrite Htag.
    reflexivity.
  - now apply back_path_forward.
  - eapply inv_walk; eauto.
  - intros d' Hw.
    destruct (drained_lower_bound g0 s stamp st HI Hh t d' Hw) as (dv & Hdv & Hle).
    rewrite Htag in Hdv. inversion Hdv. lia.
Qed.

End Reconstruction.

Lemma edges_positive_ok g : edges_positive g = true -> edges_ok g = true.
Proof.
  unfold edges_positive, edges_ok. rewrite !forallb_forall.
  intros H entry Hin. specialize (H entry Hin).
  rewrite forallb_forall in *. intros dw Hdw. specialize (H dw Hdw).
  apply andb_true_iff in H. destruct H as [H1 H2].
  apply andb_true_iff. split; auto.
  apply Z.ltb_lt in H2. apply Z.leb_le. lia.
Qed.

Lemma edges_positive_edge g u v w :
  edges_positive g = true -> edge g u v w -> 0 < w.
Proof.
  unfold edges_positive, edge, adjacency. intros Hok H.
  destruct (get (graph_edges_out g) u) as [d|] eqn:E; [|discriminate].
  apply get_Some_In in E. apply get_Some_In in H.
  rewrite forallb_forall in Hok. specialize (Hok _ E). simpl in Hok.
  rewrite forallb_forall in Hok. specialize (Hok _ H). simpl in Hok.
  apply andb_true_iff in Hok. destruct Hok as [_ H2]. now apply Z.ltb_lt.
Qed.

Lemma walk_zero_positive g s x d :
  edges_positive g = true -> walk g s x d -> d = 0 -> x = s.
Proof.
  intros Hpos H. induction H as [|u v d w Hw IH He]; auto.
  intros E. pose proof (edges_positive_edge g u v w Hpos He).
  pose proof (walk_nonneg g s u d (edges_positive_ok g Hpos) Hw). lia.
Qed.

(** X9: with non-negative integer weights and a target that can be
    reached, the list [shortest_path] returns is a path of the graph that
    ends at the target, starts at a vertex at distance zero from the
    source, and has the returned distance (the least for source and
    target) as its total weight. *)
Theorem shortest_path_returns_path g s t :
  edges_ok g = true -> vertex g s -> vertex g t -> reachable g s t ->
  exists fuel d p x,
    (forall fuel', (fuel <= fuel')%nat ->
                   shortest_path fuel' g s t = Return (Some (Fin d, p))) /\
    path g x t p d /\
    hd_error p = Some x /\ last p x = t /\
    walk g s x 0 /\
    (forall d', walk g s t d' -> d <= d').
Proof.
  intros Hok Hs Ht Hr.
  destruct (shortest_path_path g s Hok t Hs Ht Hr)
    as (fuel & d & p & x & Hrun & Hp & Hx & Hmin).
  destruct (path_ends g x t p d Hp) as [Hhd Hlast].
  exists fuel, d, p, x. auto 10.
Qed.

(** X10: when every edge weight is a positive integer and the target can
    be reached, the list [shortest_path] returns is a path of the graph from
    the source to the target whose total weight is the returned distance,
    and no path from the source to the target weighs less. *)
Theorem shortest_path_positive g s t :
  edges_positive g = true -> vertex g s -> vertex g t -> reachable g s t ->
  exists fuel d p,
    (forall fuel', (fuel <= fuel')%nat ->
                   shortest_path fuel' g s t = Return (Some (Fin d, p))) /\
    path g s t p d /\
    hd_error p = Some s /\ last p s = t /\
    (forall p' d', path g s t p' d' -> d <= d').
Proof.
  intros Hpos Hs Ht Hr.
  destruct (shortest_path_path g s (edges_positive_ok g Hpos) t Hs Ht Hr)
    as (fuel & d & p & x & Hrun & Hp & Hx & Hmin).
  assert (x = s) by (eapply walk_zero_positive; eauto). subst x.
  destruct (path_ends g s t p d Hp) as [Hhd Hlast].
  exists fuel, d, p. repeat split; auto.
  intros p' d' Hp'. apply Hmin. now apply path_walk with p'.
Qed.

Lemma shortest_path_returns_path_witness :
  edges_ok zero_edge_graph = true /\
  vertex zero_edge_graph 0 /\ vertex zero_edge_graph 1 /\
  reachable zero_edge_graph 0 1 /\
  exists fuel d p x,
    (forall fuel', (fuel <= fuel')%nat ->
                   shortest_path fuel' zero_edge_graph 0 1
                   = Return (Some (Fin d, p))) /\
    path zero_edge_graph x 1 p d /\
    hd_error p = Some x /\ last p x = 1 /\
    walk zero_edge_graph 0 x 0 /\
    (forall d', walk zero_edge_graph 0 1 d' -> d <= d').
Proof.
  assert (Hr : reachable zero_edge_graph 0 1).
  { exists (0 + 0).
    apply (walk_step zero_edge_graph 0 0 1 0 0); [|reflexivity].
    apply walk_here. reflexivity. }
  split; [reflexivity|]. split; [reflexivity|]. split; [reflexivity|].
  split; [exact Hr|].
  apply (shortest_path_returns_path zero_edge_graph 0 1);
    [reflexivity | reflexivity | reflexivity | exact Hr].
Defined.

Lemma shortest_path_positive_witness :
  edges_positive detour_graph = true /\
  vertex detour_graph 0 /\ vertex detour_graph 3 /\
  reachable detour_graph 0 3 /\
  exists fuel d p,
    (forall fuel', (fuel <= fuel')%nat ->
                   shortest_path fuel' detour_graph 0 3
                   = Return (Some (Fin d, p))) /\
    path detour_graph 0 3 p d /\
    hd_error p = Some 0 /\ last p 0 = 3 /\
    (forall p' d', path detour_graph 0 3 p' d' -> d <= d').
Proof.
  assert (Hr : reachable detour_graph 0 3).
  { exists (0 + 4 + 1).
    apply (walk_step detour_graph 0 1 3 (0 + 4) 1); [|reflexivity].
    apply (walk_step detour_graph 0 0 1 0 4); [|reflexivity].
    apply walk_here. reflexivity. }
  split; [reflexivity|]. split; [reflexivity|]. split; [reflexivity|].
  split; [exact Hr|].
  apply (shortest_path_positive detour_graph 0 3);
    [reflexivity | reflexivity | reflexivity | exact Hr].
Defined.

(** X11: with non-negative weights, whenever the target is a vertex that
    cannot be reached from the source, enough fuel makes [shortest_path]
    end in the [KeyError] of [prev_nodes[node_key]]. *)
Theorem shortest_path_unreachable_keyerror g s t :
  edges_ok g = true -> vertex g s -> vertex g t -> ~ reachable g s t ->
  exists fuel, forall fuel', (fuel <= fuel')%nat ->
    shortest_path fuel' g s t = Raise KeyError.
Proof. apply shortest_path_unreachable_general. Qed.

Lemma shortest_path_unreachable_keyerror_witness :
  edges_ok docstring_graph = true /\
  vertex docstring_graph 2 /\ vertex docstring_graph 0 /\
  ~ reachable docstring_graph 2 0 /\
  exists fuel, forall fuel', (fuel <= fuel')%nat ->
    shortest_path fuel' docstring_graph 2 0 = Raise KeyError.
Proof.
  assert (Hn : ~ reachable docstring_graph 2 0).
  { intros [d H]. inversion H as [|u v d0 w _ He]; subst.
    unfold edge, adjacency in He. simpl in He.
    destruct (Z.eqb u 0); simpl in He; [discriminate|].
    destruct (Z.eqb u 1); simpl in He; discriminate. }
  split; [reflexivity|]. split; [reflexivity|]. split; [reflexivity|].
  split; [exact Hn|].
  apply (shortest_path_unreachable_keyerror docstring_graph 2 0);
    [reflexivity | reflexivity | reflexivity | exact Hn].
Defined.

(** * Beyond the claims: the tags the search leaves, and saving *)

Lemma same_structure_refl g : same_structure g g.
Proof. unfold same_structure. auto. Qed.

Lemma same_structure_trans g1 g2 g3 :
  same_structure g1 g2 -> same_structure g2 g3 -> same_structure g1 g3.
Proof.
  intros (A1 & B1 & C1 & D1) (A2 & B2 & C2 & D2).
  repeat split; try congruence; intros v; now rewrite D2.
Qed.

Lemma set_node_tag_structure g v t g' :
  set_node_tag g v t = Return g' -> same_structure g g'.
Proof.
  unfold set_node_tag, set_tag, subscript.
  destruct (get (graph_v g) v) as [n|] eqn:E; cbn [bind]; [|discriminate].
  intros H. inversion H; subst g'. repeat split; simpl.
  - now apply keys_set_present with n.
  - intros x. unfold position. simpl. rewrite get_set.
    destruct (Z.eqb x v) eqn:Ex; auto.
    apply Z.eqb_eq in Ex. subst x. now rewrite E.
Qed.

Lemma relax_structure g0 u st v st' :
  same_structure g0 (graph st) -> relax [] u st v = Return st' ->
  same_structure g0 (graph st').
Proof.
  intros HS. unfold relax. simpl mem. cbn [negb].
  destruct (all_out_edges_of_node (graph st) u) as [out_v| |]; cbn [bind];
    try discriminate.
  destruct (mem v (keys out_v)).
  2:{ intros H. inversion H. now subst. }
  destruct (tag_of (graph_v (graph st)) u) as [tv| |]; cbn [bind];
    try discriminate.
  destruct (subscript out_v v) as [w| |]; cbn [bind]; try discriminate.
  destruct (tag_of (get_all_v (graph st)) v) as [tn| |]; cbn [bind];
    try discriminate.
  destruct (dist_gtb tn (dist_add tv w)).
  2:{ intros H. inversion H. now subst. }
  destruct (set_node_tag (graph st) v (dist_add tv w)) as [g'| |] eqn:E;
    cbn [bind]; try discriminate.
  intros H. inversion H; subst st'. simpl.
  apply same_structure_trans with (graph st); auto.
  now apply set_node_tag_structure with v (dist_add tv w).
Qed.

Lemma drain_structure g0 fuel :
  forall st st',
    same_structure g0 (graph st) -> drain fuel [] st = Return st' ->
    same_structure g0 (graph st').
Proof.
  induction fuel as [|fuel IH]; intros st st' HP H; simpl in H.
  - destruct (heap_min st) as [|[t u] h]; simpl in H; [|discriminate].
    now inversion H; subst.
  - destruct (heap_min st) as [|[t u] h]; simpl in H.
    + now inversion H; subst.
    + destruct (all_out_edges_of_node (graph st) u) as [out_v| |];
        cbn [bind] in H; try discriminate.
      destruct (for_each (keys out_v) (relax [] u)
                         (mkState (graph st) (prev_nodes st) h))
        as [st1| |] eqn:E; cbn [bind] in H; try discriminate.
      apply (IH st1); auto.
      apply (for_each_preserves (fun x => same_structure g0 (graph x))
                                (relax [] u) (keys out_v))
        with (st := mkState (graph st) (prev_nodes st) h); auto.
      intros s0 x s1. apply relax_structure.
Qed.

Lemma sp_init_structure g0 s st0 :
  sp_init g0 s = Return st0 -> same_structure g0 (graph st0).
Proof.
  unfold sp_init. intros H.
  destruct (for_each (keys (graph_v g0)) (fun g x => set_node_tag g x Inf) g0)
    as [g1| |] eqn:E1; cbn [bind] in H; try discriminate.
  destruct (set_node_tag g1 s (Fin 0)) as [g2| |] eqn:E2; cbn [bind] in H;
    try discriminate.
  destruct (tag_of (graph_v g2) s) as [t0| |]; cbn [bind] in H;
    try discriminate.
  inversion H; subst st0. simpl.
  apply same_structure_trans with g1.
  - apply (for_each_preserves (same_structure g0)
             (fun g x => set_node_tag g x Inf) (keys (graph_v g0)))
      with (st := g0); auto using same_structure_refl.
    intros g x g' Hg Hset. apply same_structure_trans with g; auto.
    now apply set_node_tag_structure with x Inf.
  - now apply set_node_tag_structure with s (Fin 0).
Qed.

(** X12: with non-negative integer weights and a source that is a vertex,
    enough fuel lets the two loops of [shortest_path] end; they leave the
    adjacency mappings, the vertex ids and the positions as they were, and
    on every vertex a tag that is the least total weight of a path from the
    source, or [math.inf] when the vertex cannot be reached. *)
Theorem shortest_path_loops_tags g s :
  edges_ok g = true -> vertex g s ->
  exists fuel st,
    (forall fuel', (fuel <= fuel')%nat ->
                   shortest_path_loops fuel' g s = Return st) /\
    same_structure g (graph st) /\
    forall v, vertex g v ->
      (tg st v = Some Inf /\ ~ reachable g s v) \/
      (exists d, tg st v = Some (Fin d) /\ walk g s v d /\
                 forall d', walk g s v d' -> d <= d').
Proof.
  intros Hok Hs.
  destruct (sp_init_inv g s Hs) as (st0 & Hinit & HI0).
  destruct (drain_total g s Hok _ _ st0 _ eq_refl eq_refl HI0)
    as (fuel & st & stamp & Hdrain & HI & Hh).
  exists fuel, st. split; [|split].
  - intros fuel' Hf. unfold shortest_path_loops. rewrite Hinit. cbn [bind].
    now apply Hdrain.
  - apply (drain_structure g fuel st0 st).
    + now apply sp_init_structure with s.
    + apply Hdrain. lia.
  - intros v Hv. destruct (tg_vertex g s _ _ _ _ HI Hv) as [[d|] Htag].
    + right. exists d. split; auto. split; [eapply inv_walk; eauto|].
      intros d' Hw.
      destruct (drained_lower_bound g s stamp st HI Hh v d' Hw) as (dv & Hdv & Hle).
      rewrite Htag in Hdv. inversion Hdv. lia.
    + left. split; auto. intros [d Hw].
      destruct (drained_lower_bound g s stamp st HI Hh v d Hw) as (dv & Hdv & _).
      rewrite Htag in Hdv. discriminate.
Qed.

Lemma shortest_path_loops_tags_witness :
  edges_ok detour_graph = true /\ vertex detour_graph 2 /\
  exists fuel st,
    (forall fuel', (fuel <= fuel')%nat ->
                   shortest_path_loops fuel' detour_graph 2 = Return st) /\
    same_structure detour_graph (graph st) /\
    forall v, vertex detour_graph v ->
      (tg st v = Some Inf /\ ~ reachable detour_graph 2 v) \/
      (exists d, tg st v = Some (Fin d) /\ walk detour_graph 2 v d /\
                 forall d', walk detour_graph 2 v d' -> d <= d').
Proof.
  split; [reflexivity|]. split; [reflexivity|].
  apply (shortest_path_loops_tags detour_graph 2); reflexivity.
Defined.

Lemma for_each_ends {A S : Type} (body : S -> A -> outcome S) l :
  (forall st x, body st x <> OutOfFuel) ->
  forall st, for_each l body st <> OutOfFuel.
Proof.
  intros Hbody. induction l as [|x l IH]; intros st; simpl; [discriminate|].
  destruct (body st x) as [st'| |] eqn:E; cbn [bind]; auto; try discriminate.
  now apply Hbody in E.
Qed.

Lemma save_doc_ends g : save_doc g <> OutOfFuel.
Proof.
  unfold save_doc.
  pose proof (for_each_ends (save_edges_of g) (keys (graph_edges_out g))) as H.
  destruct (for_each (keys (graph_edges_out g)) (save_edges_of g) [])
    as [edges| |] eqn:E; cbn [bind]; try discriminate.
  exfalso. revert E. apply H.
  intros st x. unfold save_edges_of, all_out_edges_of_node.
  destruct (contains (graph_v g) x); discriminate.
Qed.

(** X13: when its file can be opened for writing, [save_to_json] returns a
    boolean and touches no other file; with [True] the file holds the
    document that was built, with [False] it is left truncated.  When the
    file cannot be opened the call raises [OSError] and changes nothing. *)
Theorem save_to_json_outcome g w name :
  (writable w name = true ->
   exists b w',
     save_to_json g w name = (Return b, w') /\
     (forall n, String.eqb n name = false -> w' n = w n) /\
     (b = true -> exists d, save_doc g = Return d /\ w' name = Content (Some d)) /\
     (b = false -> w' name = Content None)) /\
  (writable w name = false -> save_to_json g w name = (Raise OSError, w)).
Proof.
  unfold writable, save_to_json, open_write. split.
  - intros Hw.
    assert (Hopen : match w name with
                    | NoAccess => Raise OSError
                    | _ => Return (write_file w name None)
                    end = Return (write_file w name None))
      by (destruct (w name); [reflexivity | discriminate | reflexivity]).
    rewrite Hopen. pose proof (save_doc_ends g) as Hends.
    destruct (save_doc g) as [d|e|]; [| |congruence].
    + exists true, (write_file (write_file w name None) name (Some d)).
      split; [reflexivity|]. split; [|split].
      * intros n Hn. unfold write_file. now rewrite Hn.
      * intros _. exists d. split; auto.
        unfold write_file. now rewrite String.eqb_refl.
      * discriminate.
    + exists false, (write_file w name None).
      split; [reflexivity|]. split; [|split].
      * intros n Hn. unfold write_file. now rewrite Hn.
      * discriminate.
      * intros _. unfold write_file. now rewrite String.eqb_refl.
  - intros Hw. destruct (w name); try discriminate. reflexivity.
Qed.

Lemma save_to_json_outcome_witness :
  writable no_files "g.json" = true /\
  writable locked_files "g.json" = false /\
  (exists b w',
      save_to_json placed_graph no_files "g.json" = (Return b, w') /\
      (forall n, String.eqb n "g.json" = false -> w' n = no_files n) /\
      (b = true -> exists d, save_doc placed_graph = Return d /\
                             w' "g.json"%string = Content (Some d)) /\
      (b = false -> w' "g.json"%string = Content None)) /\
  save_to_json placed_graph locked_files "g.json" = (Raise OSError, locked_files).
Proof.
  split; [reflexivity|]. split; [reflexivity|]. split.
  - apply (proj1 (save_to_json_outcome placed_graph no_files "g.json")).
    reflexivity.
  - apply (proj2 (save_to_json_outcome placed_graph locked_files "g.json")).
    reflexivity.
Defined.

(** * [shortest_path] on float weights *)

